(** * OpenFGA storage-access core: composition root, bounded-concurrency reader,
      schema migration 005

    Shallow embedding of
    - [cmd/openfga/openfga.go]                               (module [Openfga])
    - [pkg/storage/storagewrappers/boundedconcurrency.go]    (module [StorageWrappers])
    - the migration step file registering version 5          (module [Migrations])
    and the properties of the design document that concern them. *)

From Stdlib Require Import ZArith Lia String List.
From stdpp Require Import base list strings.
Import ListNotations.

Local Open Scope string_scope.
Local Open Scope list_scope.

(** ** Go prelude shared by the three packages *)

(** A trace span, identified by its id. *)
Definition Span := nat.

(** [context.Context]: the identity of the cancellation scope and the span the
    context carries ([trace.SpanFromContext]). *)
Record Context := mkContext { ctx_key : nat; ctx_span : Span }.

(** [trace.SpanFromContext(ctx)] *)
Definition SpanFromContext (ctx : Context) : Span := ctx_span ctx.

(** ** package migrations: version 5 *)

Module Migrations.

(** The statement lists of [up005] and [down005], in source order. *)
Definition up005_stmts : list string :=
  [ "ALTER TABLE tuple ADD COLUMN condition_name TEXT, ADD COLUMN condition_context BYTEA;";
    "ALTER TABLE changelog ADD COLUMN condition_name TEXT, ADD COLUMN condition_context BYTEA;" ].

Definition down005_stmts : list string :=
  [ "ALTER TABLE tuple DROP COLUMN condition_name, DROP COLUMN condition_context;";
    "ALTER TABLE changelog DROP COLUMN condition_name, DROP COLUMN condition_context;" ].

Section Step.
(** [*sql.Tx] and the driver errors are opaque to the migration. *)
Context {Tx Err : Type}.

(** [tx.ExecContext(ctx, stmt)]: the transaction after the statement and the
    error it reported ([None] is Go's [nil]); the [sql.Result] is discarded
    by the source ([_, err := ...]). *)
Variable ExecContext : Context -> Tx -> string -> Tx * option Err.

(** What a step leaves behind: the transaction and the journal of the
    statements it handed to [ExecContext], oldest first. *)
Definition Outcome : Type := (Tx * list string) * option Err.

(** [for _, stmt := range stmts { _, err := tx.ExecContext(ctx, stmt);
      if err != nil { return err } }; return nil] *)
Fixpoint exec_stmts (ctx : Context) (stmts : list string)
         (tx : Tx) (journal : list string) : Outcome :=
  match stmts with
  | [] => ((tx, journal), None)
  | stmt :: rest =>
      let '(tx', err) := ExecContext ctx tx stmt in
      match err with
      | Some e => ((tx', journal ++ [stmt]), Some e)
      | None => exec_stmts ctx rest tx' (journal ++ [stmt])
      end
  end.

Definition up005 (ctx : Context) (tx : Tx) : Outcome :=
  exec_stmts ctx up005_stmts tx [].

Definition down005 (ctx : Context) (tx : Tx) : Outcome :=
  exec_stmts ctx down005_stmts tx [].

(** [migrate.Migration] and the record registered by [init()]. *)
Record Migration := mkMigration {
  Version : Z;
  Forward : Context -> Tx -> Outcome;
  Backward : Context -> Tx -> Outcome
}.

Definition migration005 : Migration :=
  {| Version := 5; Forward := up005; Backward := down005 |}.

(** [AllOk ctx tx stmts tx']: run in list order from [tx], every statement
    of [stmts] reports [nil], and the transaction ends as [tx']. *)
Inductive AllOk (ctx : Context) : Tx -> list string -> Tx -> Prop :=
| AllOk_nil tx : AllOk ctx tx [] tx
| AllOk_cons tx stmt tx1 rest tx2 :
    ExecContext ctx tx stmt = (tx1, None) ->
    AllOk ctx tx1 rest tx2 ->
    AllOk ctx tx (stmt :: rest) tx2.

Lemma exec_stmts_all_ok ctx stmts : forall tx tx' journal,
  AllOk ctx tx stmts tx' ->
  exec_stmts ctx stmts tx journal = ((tx', journal ++ stmts), None).
Proof.
  induction stmts as [|stmt rest IH]; intros tx tx' journal Hok;
    inversion Hok as [| ? ? ? ? ? Hx Hrest]; subst; simpl.
  - by rewrite app_nil_r.
  - rewrite Hx. rewrite (IH _ _ _ Hrest). by rewrite <- app_assoc.
Qed.

Lemma exec_stmts_first_failure ctx pre : forall tx tx1 tx2 stmt post e journal,
  AllOk ctx tx pre tx1 ->
  ExecContext ctx tx1 stmt = (tx2, Some e) ->
  exec_stmts ctx (pre ++ stmt :: post) tx journal
  = ((tx2, journal ++ pre ++ [stmt]), Some e).
Proof.
  induction pre as [|p pre IH]; intros tx tx1 tx2 stmt post e journal Hok Hfail;
    inversion Hok as [| ? ? ? ? ? Hx Hrest]; subst; simpl.
  - by rewrite Hfail.
  - rewrite Hx. rewrite (IH _ _ _ _ _ _ _ Hrest Hfail).
    by rewrite <- app_assoc.
Qed.

(** Every run is one of the two cases above: the loop always returns. *)
Lemma exec_stmts_cases ctx stmts : forall tx,
  (exists tx', AllOk ctx tx stmts tx') \/
  (exists pre stmt post tx1 tx2 e,
      stmts = pre ++ stmt :: post /\ AllOk ctx tx pre tx1 /\
      ExecContext ctx tx1 stmt = (tx2, Some e)).
Proof.
  induction stmts as [|stmt rest IH]; intros tx.
  - left. eexists. constructor.
  - destruct (ExecContext ctx tx stmt) as [tx1 [e|]] eqn:Hx.
    + right. exists [], stmt, rest, tx, tx1, e. repeat split; [constructor | done].
    + destruct (IH tx1) as [[tx' Hok] | (pre & s & post & ta & tb & e & -> & Hok & Hf)].
      * left. exists tx'. econstructor; eauto.
      * right. exists (stmt :: pre), s, post, ta, tb, e.
        repeat split; [econstructor; eauto | done].
Qed.

End Step.

(** C6. Both steps of migration 5 ([up005], [down005]) run their statements in
    list order; when every statement reports nil the step returns nil having
    executed the whole list, and when a statement fails after the ones before
    it succeeded, the step returns that statement's error and the journal stops
    at the failing statement: nothing after it is executed. *)
Theorem step005_first_failure_aborts {Tx Err : Type}
    (ExecContext : Context -> Tx -> string -> Tx * option Err)
    (step : Context -> Tx -> @Outcome Tx Err) (stmts : list string)
    (Hstep : In (step, stmts) [ (up005 ExecContext, up005_stmts);
                                 (down005 ExecContext, down005_stmts) ])
    (ctx : Context) (tx : Tx) :
  (forall tx', AllOk ExecContext ctx tx stmts tx' ->
               step ctx tx = ((tx', stmts), None)) /\
  (forall pre stmt post tx1 tx2 e,
      stmts = pre ++ stmt :: post ->
      AllOk ExecContext ctx tx pre tx1 ->
      ExecContext ctx tx1 stmt = (tx2, Some e) ->
      step ctx tx = ((tx2, pre ++ [stmt]), Some e)) /\
  ((exists tx', AllOk ExecContext ctx tx stmts tx') \/
   (exists pre stmt post tx1 tx2 e,
       stmts = pre ++ stmt :: post /\ AllOk ExecContext ctx tx pre tx1 /\
       ExecContext ctx tx1 stmt = (tx2, Some e))).
Proof.
  assert (Hrun : step ctx tx = exec_stmts ExecContext ctx stmts tx []).
  { simpl in Hstep. destruct Hstep as [H | [H | []]]; by inversion H. }
  rewrite Hrun. split; [| split].
  - intros tx' Hok. by rewrite (exec_stmts_all_ok _ _ _ _ _ [] Hok).
  - intros pre stmt post tx1 tx2 e -> Hok Hfail.
    by rewrite (exec_stmts_first_failure _ _ _ _ _ _ _ _ _ [] Hok Hfail).
  - apply exec_stmts_cases.
Qed.

(** A driver on which the second statement of either list fails: the
    transaction is modelled by the number of statements applied so far. *)
Definition second_fails (_ : Context) (applied : nat) (_ : string)
  : nat * option string :=
  match applied with
  | 0 => (1, None)
  | _ => (applied, Some "column exists")
  end.

Lemma step005_first_failure_aborts_witness :
  up005 second_fails (mkContext 0 0) 0
  = ((1, [ "ALTER TABLE tuple ADD COLUMN condition_name TEXT, ADD COLUMN condition_context BYTEA;";
           "ALTER TABLE changelog ADD COLUMN condition_name TEXT, ADD COLUMN condition_context BYTEA;" ]),
     Some "column exists").
Proof.
  destruct (step005_first_failure_aborts second_fails
              (up005 second_fails) up005_stmts (or_introl eq_refl)
              (mkContext 0 0) 0) as (_ & Hfail & _).
  apply (Hfail [ "ALTER TABLE tuple ADD COLUMN condition_name TEXT, ADD COLUMN condition_context BYTEA;" ]
               "ALTER TABLE changelog ADD COLUMN condition_name TEXT, ADD COLUMN condition_context BYTEA;"
               [] 1 1 "column exists").
  - reflexivity.
  - apply AllOk_cons with (tx1 := 1); [reflexivity | apply AllOk_nil].
  - reflexivity.
Defined.

(** ** Composing steps *)

(** Running one step after another, the second only when the first returned
    nil, on the transaction the first one left. *)
Definition and_then {Tx Err : Type}
    (first second : Context -> Tx -> @Outcome Tx Err)
    (ctx : Context) (tx : Tx) : @Outcome Tx Err :=
  match first ctx tx with
  | ((tx1, journal1), None) =>
      let '((tx2, journal2), err) := second ctx tx1 in
      ((tx2, journal1 ++ journal2), err)
  | failed => failed
  end.

Lemma exec_stmts_journal {Tx Err : Type}
    (ExecContext : Context -> Tx -> string -> Tx * option Err)
    (ctx : Context) (stmts : list string) : forall tx journal,
  exec_stmts ExecContext ctx stmts tx journal
  = let '((tx', executed), err) := exec_stmts ExecContext ctx stmts tx [] in
    ((tx', journal ++ executed), err).
Proof.
  induction stmts as [|stmt rest IH]; intros tx journal; simpl.
  - by rewrite app_nil_r.
  - destruct (ExecContext ctx tx stmt) as [tx' [e|]]; [done |].
    rewrite (IH tx' (journal ++ [stmt])), (IH tx' [stmt]).
    destruct (exec_stmts ExecContext ctx rest tx' []) as [[tx2 executed] err].
    by rewrite <- app_assoc.
Qed.

Lemma exec_stmts_app {Tx Err : Type}
    (ExecContext : Context -> Tx -> string -> Tx * option Err)
    (ctx : Context) (l1 l2 : list string) : forall tx journal,
  exec_stmts ExecContext ctx (l1 ++ l2) tx journal
  = match exec_stmts ExecContext ctx l1 tx journal with
    | ((tx1, journal1), None) => exec_stmts ExecContext ctx l2 tx1 journal1
    | failed => failed
    end.
Proof.
  induction l1 as [|stmt rest IH]; intros tx journal; simpl; [done |].
  destruct (ExecContext ctx tx stmt) as [tx' [e|]]; [done |]. apply IH.
Qed.

(** X7. Applying migration 5 and then reverting it, the revert being run only
    if the forward step returned nil, is the same as running the four
    statements of the two steps as one sequence that stops at the first
    failure: same transaction, same statements executed in the same order,
    same error. In particular a failure in the forward step leaves the
    backward statements unexecuted. *)
Theorem forward_then_backward {Tx Err : Type}
    (ExecContext : Context -> Tx -> string -> Tx * option Err)
    (ctx : Context) (tx : Tx) :
  and_then (Forward (migration005 ExecContext)) (Backward (migration005 ExecContext))
           ctx tx
  = exec_stmts ExecContext ctx (up005_stmts ++ down005_stmts) tx [].
Proof.
  unfold and_then. simpl Forward. simpl Backward. unfold up005, down005.
  rewrite exec_stmts_app.
  destruct (exec_stmts ExecContext ctx up005_stmts tx []) as [[tx1 j1] [e|]];
    [done |].
  by rewrite (exec_stmts_journal ExecContext ctx down005_stmts tx1 j1).
Qed.

End Migrations.

(** ** package main: cmd/openfga *)

Module Openfga.

Definition version : string := "dev".
Definition commit : string := "none".
Definition date : string := "unknown".

(** The import block of the file, by package name as used in the code. *)
Definition imports : list string :=
  [ "context"; "fmt"; "log"; "signal"; "runtime"; "syscall"; "time";
    "envconfig"; "encoder"; "logger"; "telemetry"; "server"; "authentication";
    "oidc"; "presharedkey"; "middleware"; "storage"; "caching"; "memory";
    "postgres"; "zap"; "errgroup"; "grpc" ].

Record svcConfig := mkSvcConfig {
  DatastoreEngine : string;
  DatastoreConnectionURI : string;
  DatastoreMaxCacheSize : Z;
  ServiceName : string;
  HTTPPort : Z;
  RPCPort : Z;
  MaxTuplesPerWrite : Z;
  MaxTypesPerAuthorizationModel : Z;
  ChangelogHorizonOffset : Z;
  ResolveNodeLimit : Z;
  RequestTimeout : Z;
  AuthMethod : string;
  PresharedKeys : list string;
  IssuerURL : string;
  Audience : string
}.

(** The configuration [envconfig] produces from an empty environment: the
    [default:] tags of [svcConfig]. *)
Definition default_config : svcConfig :=
  {| DatastoreEngine := "memory";
     DatastoreConnectionURI := "";
     DatastoreMaxCacheSize := 100000;
     ServiceName := "openfga";
     HTTPPort := 8080;
     RPCPort := 8081;
     MaxTuplesPerWrite := 100;
     MaxTypesPerAuthorizationModel := 100;
     ChangelogHorizonOffset := 0;
     ResolveNodeLimit := 25;
     RequestTimeout := 0;
     AuthMethod := "none";
     PresharedKeys := [];
     IssuerURL := "";
     Audience := "" |}.

Definition with_engine (e uri : string) (c : svcConfig) : svcConfig :=
  mkSvcConfig e uri (DatastoreMaxCacheSize c) (ServiceName c) (HTTPPort c)
    (RPCPort c) (MaxTuplesPerWrite c) (MaxTypesPerAuthorizationModel c)
    (ChangelogHorizonOffset c) (ResolveNodeLimit c) (RequestTimeout c)
    (AuthMethod c) (PresharedKeys c) (IssuerURL c) (Audience c).

Definition with_auth_method (m : string) (c : svcConfig) : svcConfig :=
  mkSvcConfig (DatastoreEngine c) (DatastoreConnectionURI c)
    (DatastoreMaxCacheSize c) (ServiceName c) (HTTPPort c)
    (RPCPort c) (MaxTuplesPerWrite c) (MaxTypesPerAuthorizationModel c)
    (ChangelogHorizonOffset c) (ResolveNodeLimit c) (RequestTimeout c)
    m (PresharedKeys c) (IssuerURL c) (Audience c).

(** The values the collaborating packages hand back, by constructor call. *)
Inductive Tracer := NoopTracer.
Inductive Meter := NoopMeter.
Inductive Encoder := Base64Encoder.
Inductive Logger := ZapLogger.

Inductive PostgresOption :=
| WithLogger (l : Logger)
| WithTracer (t : Tracer).

(** Readers and datastores, by the constructor that built them:
    [memory.New], [postgres.NewPostgresDatastore],
    [storagewrappers.NewBoundedConcurrencyTupleReader] and
    [caching.NewCachedOpenFGADatastore]. *)
Inductive Datastore :=
| MemoryDatastore (t : Tracer) (maxTuplesPerWrite maxTypesPerAuthorizationModel : Z)
| PostgresDatastore (uri : string) (opts : list PostgresOption)
| BoundedConcurrencyTupleReader (wrapped : Datastore) (concurrency : Z)
| CachedOpenFGADatastore (wrapped : Datastore) (maxSize : Z).

Inductive Authenticator :=
| PresharedKeyAuthenticator (keys : list string)
| RemoteOidcAuthenticator (issuerURL audience : string).

Inductive UnaryServerInterceptor :=
| AuthenticationInterceptor (a : Authenticator).

Record Dependencies := mkDependencies {
  dep_Datastore : Datastore;
  dep_Tracer : Tracer;
  dep_Logger : Logger;
  dep_Meter : Meter;
  dep_TokenEncoder : Encoder;
  dep_Authenticator : option Authenticator
}.

Record Config := mkConfig {
  cfg_ServiceName : string;
  cfg_RPCPort : Z;
  cfg_HTTPPort : Z;
  cfg_ResolveNodeLimit : Z;
  cfg_ChangelogHorizonOffset : Z;
  cfg_UnaryInterceptors : list UnaryServerInterceptor;
  cfg_MuxOptions : list unit;
  cfg_RequestTimeout : Z
}.

Inductive Server := mkServer (deps : Dependencies) (config : Config).

(** What the process cannot decide by itself: the outcome of every call that
    leaves the file. An error is its message; [None] is Go's [nil]. *)
Record Env := mkEnv {
  env_config : svcConfig + string;          (* envconfig.Process("OPENFGA", &config) *)
  env_zap : option string;                  (* logger.NewZapLogger() *)
  env_go_version : string;                  (* runtime.Version() *)
  env_postgres : string -> list PostgresOption -> option string;
  env_preshared : list string -> option string;
  env_oidc : string -> string -> option string;
  env_server_new : Dependencies -> Config -> option string;
  env_run : Server -> option string;
  env_close_server : Server -> option string;
  env_close_datastore : Datastore -> option string
}.

(** Calls that leave the file, in the order they are made. *)
Inductive Action :=
| SignalNotifyContext
| NewZapLogger
| LogFatalf (msg : string)
| LoggerWith (fields : list (string * string))
| LoggerInfo (msg : string) (fields : list (string * string))
| LoggerError (msg : string) (err : string)
| LoggerFatal (msg : string) (err : string)
| EnvconfigProcess (prefix : string)
| NewNoopTracer
| NewNoopMeter
| NewBase64Encoder
| MemoryNew (maxTuplesPerWrite maxTypesPerAuthorizationModel : Z)
| NewPostgresDatastore (uri : string) (opts : list PostgresOption)
| NewPresharedKeyAuthenticator (keys : list string)
| NewRemoteOidcAuthenticator (issuerURL audience : string)
| NewAuthenticationInterceptor (a : Authenticator)
| NewCachedOpenFGADatastore (wrapped : Datastore) (maxSize : Z)
| ServerNew (deps : Dependencies) (config : Config)
| ErrgroupWithContext
| ServerRun (s : Server)
| ContextWithTimeout (seconds : Z)
| ServerClose (s : Server)
| DatastoreClose (d : Datastore).

(** The package each call enters (the qualifier in the source, or the package
    of the receiver for a method call). *)
Definition package_of (a : Action) : string :=
  match a with
  | SignalNotifyContext => "signal"
  | NewZapLogger | LoggerWith _ | LoggerInfo _ _ | LoggerError _ _
  | LoggerFatal _ _ => "logger"
  | LogFatalf _ => "log"
  | EnvconfigProcess _ => "envconfig"
  | NewNoopTracer | NewNoopMeter => "telemetry"
  | NewBase64Encoder => "encoder"
  | MemoryNew _ _ => "memory"
  | NewPostgresDatastore _ _ => "postgres"
  | NewPresharedKeyAuthenticator _ => "presharedkey"
  | NewRemoteOidcAuthenticator _ _ => "oidc"
  | NewAuthenticationInterceptor _ => "middleware"
  | NewCachedOpenFGADatastore _ _ => "caching"
  | ServerNew _ _ | ServerRun _ | ServerClose _ => "server"
  | ErrgroupWithContext => "errgroup"
  | ContextWithTimeout _ => "context"
  | DatastoreClose _ => "storage"
  end.

(** *** A writer monad with Go-style errors: the calls made so far, and either
    a value or the error returned. *)
Definition M (A : Type) : Type := list Action * (A + string).

Definition ret {A} (a : A) : M A := ([], inl a).
Definition fail {A} (e : string) : M A := ([], inr e).
Definition emit (a : Action) : M unit := ([a], inl tt).
Definition bind {A B} (m : M A) (k : A -> M B) : M B :=
  match m with
  | (t, inl a) => let '(t', r) := k a in (t ++ t', r)
  | (t, inr e) => (t, inr e)
  end.

Notation "x <- m ;; k" := (bind m (fun x => k))
  (at level 100, m at next level, right associativity).
Notation "m ;;; k" := (bind m (fun _ => k))
  (at level 100, right associativity).

(** [fmt.Errorf(prefix + "%v", err)] when [err != nil]. *)
Definition check_err (err : option string) (prefix : string) : M unit :=
  match err with
  | Some e => fail (prefix +:+ e)
  | None => ret tt
  end.

Definition trace {A} (m : M A) : list Action := fst m.
Definition result {A} (m : M A) : A + string := snd m.

Definition buildServerAndDatastore (env : Env) (logger : Logger)
  : M (Datastore * Server) :=
  emit (EnvconfigProcess "OPENFGA") ;;;
  config <- match env_config env with
            | inl c => ret c
            | inr e => fail ("failed to process server config: " +:+ e)
            end ;;
  emit NewNoopTracer ;;;
  let tracer := NoopTracer in
  emit NewNoopMeter ;;;
  let meter := NoopMeter in
  emit NewBase64Encoder ;;;
  let tokenEncoder := Base64Encoder in
  datastore <-
    (if String.eqb (DatastoreEngine config) "memory" then
       emit (LoggerInfo "using 'memory' storage engine" []) ;;;
       emit (MemoryNew (MaxTuplesPerWrite config)
                       (MaxTypesPerAuthorizationModel config)) ;;;
       ret (MemoryDatastore tracer (MaxTuplesPerWrite config)
                            (MaxTypesPerAuthorizationModel config))
     else if String.eqb (DatastoreEngine config) "postgres" then
       emit (LoggerInfo "using 'postgres' storage engine" []) ;;;
       let opts := [WithLogger logger; WithTracer tracer] in
       emit (NewPostgresDatastore (DatastoreConnectionURI config) opts) ;;;
       check_err (env_postgres env (DatastoreConnectionURI config) opts)
             "failed to initialize postgres datastore: " ;;;
       ret (PostgresDatastore (DatastoreConnectionURI config) opts)
     else
       fail ("storage engine '" +:+ DatastoreEngine config +:+ "' is unsupported")) ;;
  authenticator <-
    (if String.eqb (AuthMethod config) "preshared" then
       emit (NewPresharedKeyAuthenticator (PresharedKeys config)) ;;;
       check_err (env_preshared env (PresharedKeys config))
             "failed to initialize authenticator: " ;;;
       ret (Some (PresharedKeyAuthenticator (PresharedKeys config)))
     else if String.eqb (AuthMethod config) "oidc" then
       emit (NewRemoteOidcAuthenticator (IssuerURL config) (Audience config)) ;;;
       check_err (env_oidc env (IssuerURL config) (Audience config))
             "failed to initialize authenticator: " ;;;
       ret (Some (RemoteOidcAuthenticator (IssuerURL config) (Audience config)))
     else
       ret None) ;;
  interceptors <-
    match authenticator with
    | Some a => emit (NewAuthenticationInterceptor a) ;;;
                ret [AuthenticationInterceptor a]
    | None => ret []
    end ;;
  emit (NewCachedOpenFGADatastore datastore (DatastoreMaxCacheSize config)) ;;;
  let deps :=
    {| dep_Datastore := CachedOpenFGADatastore datastore (DatastoreMaxCacheSize config);
       dep_Tracer := tracer;
       dep_Logger := logger;
       dep_Meter := meter;
       dep_TokenEncoder := tokenEncoder;
       dep_Authenticator := authenticator |} in
  let cfg :=
    {| cfg_ServiceName := ServiceName config;
       cfg_RPCPort := RPCPort config;
       cfg_HTTPPort := HTTPPort config;
       cfg_ResolveNodeLimit := ResolveNodeLimit config;
       cfg_ChangelogHorizonOffset := ChangelogHorizonOffset config;
       cfg_UnaryInterceptors := interceptors;
       cfg_MuxOptions := [];
       cfg_RequestTimeout := RequestTimeout config |} in
  emit (ServerNew deps cfg) ;;;
  check_err (env_server_new env deps cfg) "failed to initialize openfga server: " ;;;
  ret (datastore, mkServer deps cfg).

(** How [main] ends: it returns, or the process is terminated by
    [log.Fatalf] / [logger.Fatal]. *)
Inductive Exit := Returned | Fatal.

(** [if err != nil { logger.Error(msg, zap.Error(err)) }] *)
Definition log_error (err : option string) (msg : string) : list Action :=
  match err with
  | Some e => [LoggerError msg e]
  | None => []
  end.

(** [log.Fatalf]: prints the message and ends the process with [os.Exit(1)];
    no deferred call runs. *)
Definition log_Fatalf (msg : string) : list Action * Exit :=
  ([LogFatalf msg], Fatal).

(** Modelled from the spec: [logger.Fatal] of pkg/logger (a wrapper of the
    zap logger, not among the files here) logs and terminates the process,
    as [log.Fatalf] does: startup failures abort the process before any
    listener opens. *)
Definition logger_Fatal (msg err : string) : list Action * Exit :=
  ([LoggerFatal msg err], Fatal).

Definition main (env : Env) : list Action * Exit :=
  let t0 := [SignalNotifyContext; NewZapLogger] in
  match env_zap env with
  | Some e =>
      let '(t, exit) := log_Fatalf ("failed to initialize logger: " +:+ e) in
      (t0 ++ t, exit)
  | None =>
      let logger := ZapLogger in
      let t1 := t0 ++ [LoggerWith [("build.version", version);
                                   ("build.commit", commit)]] in
      match buildServerAndDatastore env logger with
      | (tb, inr e) =>
          let '(t, exit) := logger_Fatal "failed to initialize openfga server" e in
          (t1 ++ tb ++ t, exit)
      | (tb, inl (datastore, openFgaServer)) =>
          (t1 ++ tb
           ++ [ErrgroupWithContext;
               LoggerInfo "🚀 starting openfga service..."
                 [("version", version); ("date", date); ("commit", commit);
                  ("go-version", env_go_version env)];
               ServerRun openFgaServer]
           ++ log_error (env_run env openFgaServer) "failed to run openfga server"
           ++ [ContextWithTimeout 5; ServerClose openFgaServer]
           ++ log_error (env_close_server env openFgaServer)
                "failed to gracefully shutdown openfga server"
           ++ [DatastoreClose datastore]
           ++ log_error (env_close_datastore env datastore)
                "failed to gracefully shutdown openfga datastore"
           ++ [LoggerInfo "Server exiting. Goodbye 👋" []],
           Returned)
      end
  end.

(** An environment in which every collaborator succeeds. *)
Definition env_ok (c : svcConfig) : Env :=
  {| env_config := inl c;
     env_zap := None;
     env_go_version := "go1.19";
     env_postgres := fun _ _ => None;
     env_preshared := fun _ => None;
     env_oidc := fun _ _ => None;
     env_server_new := fun _ _ => None;
     env_run := fun _ => None;
     env_close_server := fun _ => None;
     env_close_datastore := fun _ => None |}.

Example main_default :
  main (env_ok default_config)
  = (let ds := MemoryDatastore NoopTracer 100 100 in
     let srv := mkServer
       (mkDependencies (CachedOpenFGADatastore ds 100000) NoopTracer ZapLogger
                       NoopMeter Base64Encoder None)
       (mkConfig "openfga" 8081 8080 25 0 [] [] 0) in
     [ SignalNotifyContext; NewZapLogger;
       LoggerWith [("build.version", "dev"); ("build.commit", "none")];
       EnvconfigProcess "OPENFGA"; NewNoopTracer; NewNoopMeter; NewBase64Encoder;
       LoggerInfo "using 'memory' storage engine" [];
       MemoryNew 100 100;
       NewCachedOpenFGADatastore ds 100000;
       ServerNew (mkDependencies (CachedOpenFGADatastore ds 100000) NoopTracer
                    ZapLogger NoopMeter Base64Encoder None)
                 (mkConfig "openfga" 8081 8080 25 0 [] [] 0);
       ErrgroupWithContext;
       LoggerInfo "🚀 starting openfga service..."
         [("version", "dev"); ("date", "unknown"); ("commit", "none");
          ("go-version", "go1.19")];
       ServerRun srv;
       ContextWithTimeout 5; ServerClose srv; DatastoreClose ds;
       LoggerInfo "Server exiting. Goodbye 👋" [] ], Returned).
Proof. reflexivity. Qed.

(** A physical engine, as opposed to a decorator. *)
Definition is_physical (d : Datastore) : bool :=
  match d with
  | MemoryDatastore _ _ _ | PostgresDatastore _ _ => true
  | _ => false
  end.

(** Engine, then concurrency bound, then cache on top. *)
Definition bounded_then_cached (d : Datastore) : bool :=
  match d with
  | CachedOpenFGADatastore (BoundedConcurrencyTupleReader e _) _ => is_physical e
  | _ => false
  end.

Fixpoint has_bounded (d : Datastore) : bool :=
  match d with
  | MemoryDatastore _ _ _ | PostgresDatastore _ _ => false
  | BoundedConcurrencyTupleReader _ _ => true
  | CachedOpenFGADatastore w _ => has_bounded w
  end.

(** The packages that hold the migration registry and its steps. *)
Definition migration_packages : list string := ["migrate"; "migrations"].

Definition applies_migrations (a : Action) : bool :=
  existsb (String.eqb (package_of a)) migration_packages.

Definition enters_server (a : Action) : bool :=
  String.eqb (package_of a) "server".

Definition builds_authentication (a : Action) : bool :=
  existsb (String.eqb (package_of a)) ["presharedkey"; "oidc"; "middleware"].

Definition with_config (c : svcConfig) (env : Env) : Env :=
  mkEnv (inl c) (env_zap env) (env_go_version env) (env_postgres env)
        (env_preshared env) (env_oidc env) (env_server_new env) (env_run env)
        (env_close_server env) (env_close_datastore env).

Ltac run_build :=
  unfold buildServerAndDatastore, trace, result, check_err, bind, emit, ret, fail;
  simpl.

Ltac case_eqb x y :=
  let E := fresh "E" in
  destruct (String.eqb x y) eqn:E;
  [apply String.eqb_eq in E | apply String.eqb_neq in E].

(** The options of the configuration surface are exactly the fifteen fields. *)
Lemma svcConfig_options (c : svcConfig) :
  c = mkSvcConfig (DatastoreEngine c) (DatastoreConnectionURI c)
        (DatastoreMaxCacheSize c) (ServiceName c) (HTTPPort c) (RPCPort c)
        (MaxTuplesPerWrite c) (MaxTypesPerAuthorizationModel c)
        (ChangelogHorizonOffset c) (ResolveNodeLimit c) (RequestTimeout c)
        (AuthMethod c) (PresharedKeys c) (IssuerURL c) (Audience c).
Proof. by destruct c. Qed.

(** Whatever the environment, a server is only ever built over a cache laid
    directly on a physical engine. *)
Lemma server_new_datastore env logger deps cfg :
  In (ServerNew deps cfg) (trace (buildServerAndDatastore env logger)) ->
  exists config engine,
    env_config env = inl config /\
    is_physical engine = true /\
    dep_Datastore deps = CachedOpenFGADatastore engine (DatastoreMaxCacheSize config) /\
    In (NewCachedOpenFGADatastore engine (DatastoreMaxCacheSize config))
       (trace (buildServerAndDatastore env logger)).
Proof.
  run_build. destruct (env_config env) as [config | e] eqn:Hc; simpl.
  2: { intros [H | []]; discriminate. }
  intros Hin. exists config.
  case_eqb (DatastoreEngine config) "memory";
    [| case_eqb (DatastoreEngine config) "postgres";
       [ destruct (env_postgres env _ _) |] ];
    simpl in *;
    try (case_eqb (AuthMethod config) "preshared";
         [ destruct (env_preshared env _)
         | case_eqb (AuthMethod config) "oidc";
           [ destruct (env_oidc env _ _) |] ]);
    simpl in *;
    try destruct (env_server_new env _ _); simpl in *;
    repeat (destruct Hin as [Hin | Hin]; try discriminate);
    try contradiction;
    inversion Hin; subst; simpl;
    eexists; repeat split; simpl; tauto.
Qed.

(** C3, as the design document has it (refuted below): the datastore handed
    to the server is a cache over a concurrency-bounded reader over the
    engine. *)
Definition stack_is_bounded_then_cached (env : Env) (logger : Logger) : Prop :=
  forall deps cfg,
    In (ServerNew deps cfg) (trace (buildServerAndDatastore env logger)) ->
    bounded_then_cached (dep_Datastore deps) = true.

(** C3 fails on the default configuration: the cache is laid directly on the
    in-memory engine, with no concurrency-bounded reader in between. *)
Lemma stack_is_bounded_then_cached_default_fails :
  result (buildServerAndDatastore (env_ok default_config) ZapLogger)
  = inl (MemoryDatastore NoopTracer 100 100,
         mkServer
           (mkDependencies
              (CachedOpenFGADatastore (MemoryDatastore NoopTracer 100 100) 100000)
              NoopTracer ZapLogger NoopMeter Base64Encoder None)
           (mkConfig "openfga" 8081 8080 25 0 [] [] 0)) /\
  ~ stack_is_bounded_then_cached (env_ok default_config) ZapLogger.
Proof.
  split; [reflexivity |].
  intros H.
  specialize (H (mkDependencies
                   (CachedOpenFGADatastore (MemoryDatastore NoopTracer 100 100) 100000)
                   NoopTracer ZapLogger NoopMeter Base64Encoder None)
                (mkConfig "openfga" 8081 8080 25 0 [] [] 0)).
  simpl in H. discriminate H. do 7 right. by left.
Qed.

(** C3 (amended). The composition root builds the stack physical engine, then
    caching reader of capacity [DatastoreMaxCacheSize]: the datastore of every
    server it builds is a cache directly over the selected engine, no
    concurrency-bounded reader is part of the stack, and the configuration
    from which the stack is built has the fifteen options of [svcConfig],
    none of which is a concurrency bound. *)
Theorem stack_is_engine_then_cache (env : Env) (logger : Logger)
    (deps : Dependencies) (cfg : Config)
    (Hnew : In (ServerNew deps cfg) (trace (buildServerAndDatastore env logger))) :
  exists config engine,
    env_config env = inl config /\
    config = mkSvcConfig (DatastoreEngine config) (DatastoreConnectionURI config)
               (DatastoreMaxCacheSize config) (ServiceName config) (HTTPPort config)
               (RPCPort config) (MaxTuplesPerWrite config)
               (MaxTypesPerAuthorizationModel config) (ChangelogHorizonOffset config)
               (ResolveNodeLimit config) (RequestTimeout config) (AuthMethod config)
               (PresharedKeys config) (IssuerURL config) (Audience config) /\
    is_physical engine = true /\
    dep_Datastore deps = CachedOpenFGADatastore engine (DatastoreMaxCacheSize config) /\
    has_bounded (dep_Datastore deps) = false /\
    bounded_then_cached (dep_Datastore deps) = false.
Proof.
  destruct (server_new_datastore _ _ _ _ Hnew) as (config & engine & Hc & Hp & Hd & _).
  exists config, engine. rewrite Hd.
  repeat split; try done.
  - apply svcConfig_options.
  - by destruct engine.
  - by destruct engine.
Qed.

Lemma stack_is_engine_then_cache_witness :
  exists config engine,
    env_config (env_ok default_config) = inl config /\
    config = mkSvcConfig (DatastoreEngine config) (DatastoreConnectionURI config)
               (DatastoreMaxCacheSize config) (ServiceName config) (HTTPPort config)
               (RPCPort config) (MaxTuplesPerWrite config)
               (MaxTypesPerAuthorizationModel config) (ChangelogHorizonOffset config)
               (ResolveNodeLimit config) (RequestTimeout config) (AuthMethod config)
               (PresharedKeys config) (IssuerURL config) (Audience config) /\
    is_physical engine = true /\
    CachedOpenFGADatastore (MemoryDatastore NoopTracer 100 100) 100000
    = CachedOpenFGADatastore engine (DatastoreMaxCacheSize config) /\
    has_bounded (CachedOpenFGADatastore (MemoryDatastore NoopTracer 100 100) 100000)
    = false /\
    bounded_then_cached
      (CachedOpenFGADatastore (MemoryDatastore NoopTracer 100 100) 100000) = false.
Proof.
  apply (stack_is_engine_then_cache (env_ok default_config) ZapLogger
           (mkDependencies
              (CachedOpenFGADatastore (MemoryDatastore NoopTracer 100 100) 100000)
              NoopTracer ZapLogger NoopMeter Base64Encoder None)
           (mkConfig "openfga" 8081 8080 25 0 [] [] 0)).
  simpl. do 7 right. left. reflexivity.
Defined.

(** A relational deployment in which every collaborator succeeds. *)
Definition postgres_config : svcConfig :=
  with_engine "postgres" "postgres://localhost:5432/openfga" default_config.

(** C4, as the design document has it (refuted below): with the relational
    engine, a call into the migration packages precedes the call to
    [Run]. *)
Definition migrates_before_serving (env : Env) : Prop :=
  exists before srv after,
    fst (main env) = before ++ ServerRun srv :: after /\
    existsb applies_migrations before = true.

(** C4 fails: started on the relational engine, [main] reaches [Run] having
    made the calls listed here, none of which applies a migration. *)
Lemma migrates_before_serving_postgres_fails :
  let ds := PostgresDatastore "postgres://localhost:5432/openfga"
              [WithLogger ZapLogger; WithTracer NoopTracer] in
  let deps := mkDependencies (CachedOpenFGADatastore ds 100000) NoopTracer
                ZapLogger NoopMeter Base64Encoder None in
  let cfg := mkConfig "openfga" 8081 8080 25 0 [] [] 0 in
  DatastoreEngine postgres_config = "postgres" /\
  firstn 13 (fst (main (env_ok postgres_config)))
  = [ SignalNotifyContext; NewZapLogger;
      LoggerWith [("build.version", "dev"); ("build.commit", "none")];
      EnvconfigProcess "OPENFGA"; NewNoopTracer; NewNoopMeter; NewBase64Encoder;
      LoggerInfo "using 'postgres' storage engine" [];
      NewPostgresDatastore "postgres://localhost:5432/openfga"
        [WithLogger ZapLogger; WithTracer NoopTracer];
      NewCachedOpenFGADatastore ds 100000;
      ServerNew deps cfg;
      ErrgroupWithContext;
      LoggerInfo "🚀 starting openfga service..."
        [("version", "dev"); ("date", "unknown"); ("commit", "none");
         ("go-version", "go1.19")] ] /\
  nth_error (fst (main (env_ok postgres_config))) 13
  = Some (ServerRun (mkServer deps cfg)) /\
  ~ migrates_before_serving (env_ok postgres_config).
Proof.
  repeat split.
  intros (before & srv & after & Heq & Hmig).
  assert (Hall : forallb (fun a => negb (applies_migrations a))
                         (fst (main (env_ok postgres_config))) = true)
    by reflexivity.
  rewrite Heq in Hall. rewrite forallb_app in Hall.
  apply andb_prop in Hall as [Hall _].
  rewrite forallb_forall in Hall.
  apply existsb_exists in Hmig as (a & Hin & Ha).
  specialize (Hall a Hin). by rewrite Ha in Hall.
Qed.
Lemma no_action_applies_migrations (a : Action) : applies_migrations a = false.
Proof. by destruct a. Qed.

Lemma no_migration_in (t : list Action) : existsb applies_migrations t = false.
Proof.
  induction t as [|a t IH]; [done |].
  simpl. by rewrite no_action_applies_migrations, IH.
Qed.

(** Every call is to a package of the import block, which has none of the
    migration packages. *)
Lemma package_imported (a : Action) : In (package_of a) imports.
Proof. destruct a; simpl; tauto. Qed.

Lemma migrations_not_imported :
  forall p, In p migration_packages -> ~ In p imports.
Proof.
  intros p [<- | [<- | []]] Hin; simpl in Hin;
    repeat (destruct Hin as [Hin | Hin]; [discriminate Hin |]); exact Hin.
Qed.

(** The packages entered once the engine has been built. *)
Definition after_engine (a : Action) : bool :=
  existsb (String.eqb (package_of a))
          ["presharedkey"; "oidc"; "middleware"; "caching"; "server"].

(** C4 (amended). Started on the relational engine, the composition root
    applies no migration: it builds the engine with the single call
    [postgres.NewPostgresDatastore(uri, WithLogger, WithTracer)], treats a
    failure of that call as fatal, and otherwise goes on to authentication,
    the cache and the server; no call of [main] enters the migration
    packages. *)
Theorem postgres_startup_applies_no_migration (env : Env) (logger : Logger)
    (config : svcConfig)
    (Hconfig : env_config env = inl config)
    (Hengine : DatastoreEngine config = "postgres") :
  let uri := DatastoreConnectionURI config in
  let opts := [WithLogger logger; WithTracer NoopTracer] in
  exists rest,
    trace (buildServerAndDatastore env logger)
    = [ EnvconfigProcess "OPENFGA"; NewNoopTracer; NewNoopMeter; NewBase64Encoder;
        LoggerInfo "using 'postgres' storage engine" [];
        NewPostgresDatastore uri opts ] ++ rest /\
    forallb after_engine rest = true /\
    (forall e, env_postgres env uri opts = Some e ->
               rest = [] /\
               result (buildServerAndDatastore env logger)
               = inr ("failed to initialize postgres datastore: " +:+ e)) /\
    existsb applies_migrations (fst (main env)) = false /\
    (forall a, In a (fst (main env)) ->
               In (package_of a) imports /\ ~ In (package_of a) migration_packages).
Proof.
  intros uri opts. subst uri opts.
  assert (Himp : forall a, In a (fst (main env)) ->
                   In (package_of a) imports /\ ~ In (package_of a) migration_packages).
  { intros a _. split; [apply package_imported |].
    intros Hm. exact (migrations_not_imported _ Hm (package_imported a)). }
  revert Himp. generalize (fst (main env)). intros tmain Himp.
  run_build. rewrite Hconfig, Hengine. simpl.
  destruct (env_postgres env _ _) as [e|] eqn:Hpg; simpl.
  - exists []. split; [done | split; [done | split; [| split]]].
    + intros e' He'. by inversion He'.
    + apply no_migration_in.
    + exact Himp.
  - case_eqb (AuthMethod config) "preshared";
      [ destruct (env_preshared env _)
      | case_eqb (AuthMethod config) "oidc";
        [ destruct (env_oidc env _ _) |] ];
      simpl; try destruct (env_server_new env _ _); simpl;
      eexists;
      (split; [reflexivity | split; [reflexivity | split;
         [intros ? ?; discriminate | split; [apply no_migration_in | exact Himp]]]]).
Qed.

Lemma postgres_startup_applies_no_migration_witness :
  exists rest,
    trace (buildServerAndDatastore (env_ok postgres_config) ZapLogger)
    = [ EnvconfigProcess "OPENFGA"; NewNoopTracer; NewNoopMeter; NewBase64Encoder;
        LoggerInfo "using 'postgres' storage engine" [];
        NewPostgresDatastore "postgres://localhost:5432/openfga"
          [WithLogger ZapLogger; WithTracer NoopTracer] ] ++ rest /\
    forallb after_engine rest = true /\
    (forall e, env_postgres (env_ok postgres_config)
                 "postgres://localhost:5432/openfga"
                 [WithLogger ZapLogger; WithTracer NoopTracer] = Some e ->
               rest = [] /\
               result (buildServerAndDatastore (env_ok postgres_config) ZapLogger)
               = inr ("failed to initialize postgres datastore: " +:+ e)) /\
    existsb applies_migrations (fst (main (env_ok postgres_config))) = false /\
    (forall a, In a (fst (main (env_ok postgres_config))) ->
               In (package_of a) imports /\ ~ In (package_of a) migration_packages).
Proof.
  apply (postgres_startup_applies_no_migration (env_ok postgres_config) ZapLogger
           postgres_config); reflexivity.
Defined.

(** C7. When the configured engine name is neither [memory] nor [postgres],
    [buildServerAndDatastore] returns the error naming the engine, having
    called nothing but the configuration loader and the no-op telemetry and
    encoder constructors; [main] ends in the fatal exit and none of its calls
    enters the server package, so [Run] is never called and no listener is
    opened; when the logger could be built, the last call of [main] is the
    fatal log of that error. *)
Theorem unsupported_engine_is_fatal (env : Env) (logger : Logger)
    (config : svcConfig)
    (Hconfig : env_config env = inl config)
    (Hmem : DatastoreEngine config <> "memory")
    (Hpg : DatastoreEngine config <> "postgres") :
  let err := "storage engine '" +:+ DatastoreEngine config +:+ "' is unsupported" in
  result (buildServerAndDatastore env logger) = inr err /\
  trace (buildServerAndDatastore env logger)
  = [EnvconfigProcess "OPENFGA"; NewNoopTracer; NewNoopMeter; NewBase64Encoder] /\
  snd (main env) = Fatal /\
  existsb enters_server (fst (main env)) = false /\
  (forall s, ~ In (ServerRun s) (fst (main env))) /\
  (env_zap env = None ->
   last (fst (main env))
   = Some (LoggerFatal "failed to initialize openfga server" err)).
Proof.
  intros err. subst err.
  apply String.eqb_neq in Hmem, Hpg.
  assert (Hb : forall l, buildServerAndDatastore env l
               = ([EnvconfigProcess "OPENFGA"; NewNoopTracer; NewNoopMeter;
                   NewBase64Encoder],
                  inr ("storage engine '" +:+ DatastoreEngine config
                       +:+ "' is unsupported"))).
  { intros l. run_build. rewrite Hconfig. simpl. by rewrite Hmem, Hpg. }
  unfold result, trace, main. rewrite !Hb.
  destruct (env_zap env) as [ez|]; simpl;
    (split; [done | split; [done | split; [done | split; [done | split]]]]);
    try done;
    intros s Hin; simpl in Hin;
    repeat (destruct Hin as [Hin | Hin]; try discriminate); done.
Qed.

Lemma unsupported_engine_is_fatal_witness :
  let env := env_ok (with_engine "mysql" "" default_config) in
  result (buildServerAndDatastore env ZapLogger)
  = inr "storage engine 'mysql' is unsupported" /\
  snd (main env) = Fatal /\
  last (fst (main env))
  = Some (LoggerFatal "failed to initialize openfga server"
            "storage engine 'mysql' is unsupported").
Proof.
  destruct (unsupported_engine_is_fatal
              (env_ok (with_engine "mysql" "" default_config)) ZapLogger
              (with_engine "mysql" "" default_config) eq_refl)
    as (Hr & _ & Hx & _ & _ & Hl).
  - simpl. discriminate.
  - simpl. discriminate.
  - split; [exact Hr | split; [exact Hx | exact (Hl eq_refl)]].
Defined.

(** C9. With an authentication method other than [preshared] and [oidc]
    (whatever the string), the composition root goes on without
    authentication: it calls no authenticator constructor and installs no
    interceptor, every server it builds has a nil authenticator and no unary
    interceptor, the whole outcome is the one of the method [none], and the
    build succeeds as soon as the engine is supported and the engine and
    server constructors report no error. *)
Theorem unknown_auth_method_means_none (env : Env) (logger : Logger)
    (config : svcConfig)
    (Hconfig : env_config env = inl config)
    (Hpre : AuthMethod config <> "preshared")
    (Hoidc : AuthMethod config <> "oidc") :
  existsb builds_authentication (trace (buildServerAndDatastore env logger)) = false /\
  (forall deps cfg,
      In (ServerNew deps cfg) (trace (buildServerAndDatastore env logger)) ->
      dep_Authenticator deps = None /\ cfg_UnaryInterceptors cfg = []) /\
  buildServerAndDatastore env logger
  = buildServerAndDatastore (with_config (with_auth_method "none" config) env) logger /\
  ((DatastoreEngine config = "memory" \/ DatastoreEngine config = "postgres") ->
   (forall uri opts, env_postgres env uri opts = None) ->
   (forall deps cfg, env_server_new env deps cfg = None) ->
   exists datastore srv,
     result (buildServerAndDatastore env logger) = inl (datastore, srv)).
Proof.
  apply String.eqb_neq in Hpre, Hoidc.
  run_build. rewrite Hconfig. simpl. rewrite Hpre, Hoidc.
  case_eqb (DatastoreEngine config) "memory";
    [| case_eqb (DatastoreEngine config) "postgres";
       [ destruct (env_postgres env _ _) eqn:Hp |] ];
    simpl; try (destruct (env_server_new env _ _) eqn:Hs); simpl;
    (split; [reflexivity |]);
    (split; [ intros deps cfg Hin;
              repeat (destruct Hin as [Hin | Hin]; try discriminate);
              try contradiction; by inversion Hin |]);
    (split; [reflexivity |]);
    intros Hsup Hpg Hnew;
    try (rewrite Hnew in Hs; discriminate);
    try (rewrite Hpg in Hp; discriminate);
    try (destruct Hsup; congruence);
    eauto.
Qed.

Lemma unknown_auth_method_means_none_witness :
  let env := env_ok (with_auth_method "oauth2" default_config) in
  existsb builds_authentication (trace (buildServerAndDatastore env ZapLogger)) = false /\
  buildServerAndDatastore env ZapLogger
  = buildServerAndDatastore (env_ok default_config) ZapLogger /\
  exists datastore srv,
    result (buildServerAndDatastore env ZapLogger) = inl (datastore, srv).
Proof.
  destruct (unknown_auth_method_means_none
              (env_ok (with_auth_method "oauth2" default_config)) ZapLogger
              (with_auth_method "oauth2" default_config) eq_refl)
    as (Hn & _ & Hsame & Hok).
  - simpl. discriminate.
  - simpl. discriminate.
  - split; [exact Hn | split; [exact Hsame |]].
    apply Hok; [by left | done | done].
Defined.

(** ** Further properties of the composition root *)

(** The engine the configuration selects, [None] for an unsupported name. *)
Definition engine_for (config : svcConfig) (logger : Logger) : option Datastore :=
  if String.eqb (DatastoreEngine config) "memory" then
    Some (MemoryDatastore NoopTracer (MaxTuplesPerWrite config)
                          (MaxTypesPerAuthorizationModel config))
  else if String.eqb (DatastoreEngine config) "postgres" then
    Some (PostgresDatastore (DatastoreConnectionURI config)
                            [WithLogger logger; WithTracer NoopTracer])
  else None.

(** The error of the engine constructor, for the one engine that has one. *)
Definition engine_error (env : Env) (config : svcConfig) (logger : Logger)
  : option string :=
  if String.eqb (DatastoreEngine config) "memory" then None
  else if String.eqb (DatastoreEngine config) "postgres" then
    env_postgres env (DatastoreConnectionURI config)
                 [WithLogger logger; WithTracer NoopTracer]
  else None.

(** The authenticator the configuration selects, and the error of its
    constructor. *)
Definition authenticator_for (config : svcConfig) : option Authenticator :=
  if String.eqb (AuthMethod config) "preshared" then
    Some (PresharedKeyAuthenticator (PresharedKeys config))
  else if String.eqb (AuthMethod config) "oidc" then
    Some (RemoteOidcAuthenticator (IssuerURL config) (Audience config))
  else None.

Definition authenticator_error (env : Env) (config : svcConfig) : option string :=
  if String.eqb (AuthMethod config) "preshared" then
    env_preshared env (PresharedKeys config)
  else if String.eqb (AuthMethod config) "oidc" then
    env_oidc env (IssuerURL config) (Audience config)
  else None.

Definition interceptors_for (a : option Authenticator)
  : list UnaryServerInterceptor :=
  match a with
  | Some x => [AuthenticationInterceptor x]
  | None => []
  end.

(** The two arguments of [server.New] for an engine. *)
Definition dependencies_for (config : svcConfig) (logger : Logger)
           (engine : Datastore) : Dependencies :=
  mkDependencies (CachedOpenFGADatastore engine (DatastoreMaxCacheSize config))
                 NoopTracer logger NoopMeter Base64Encoder
                 (authenticator_for config).

Definition config_for (config : svcConfig) : Config :=
  mkConfig (ServiceName config) (RPCPort config) (HTTPPort config)
           (ResolveNodeLimit config) (ChangelogHorizonOffset config)
           (interceptors_for (authenticator_for config)) []
           (RequestTimeout config).

Ltac build_cases env config Hconfig :=
  run_build; rewrite Hconfig; simpl;
  unfold dependencies_for, config_for in *;
  unfold engine_for, engine_error, authenticator_for, authenticator_error,
         interceptors_for in *;
  destruct (String.eqb (DatastoreEngine config) "memory") eqn:?;
    [| destruct (String.eqb (DatastoreEngine config) "postgres") eqn:?;
       [destruct (env_postgres env _ _) eqn:? |] ];
    simpl in *;
    try (destruct (String.eqb (AuthMethod config) "preshared") eqn:?;
         [ destruct (env_preshared env _) eqn:?
         | destruct (String.eqb (AuthMethod config) "oidc") eqn:?;
           [ destruct (env_oidc env _ _) eqn:? |] ]);
    simpl in *;
    try (destruct (env_server_new env _ _) eqn:?); simpl in *.

(** X1. Once the configuration is loaded, the build succeeds exactly when
    the engine name is supported, the engine constructor, the constructor of
    the selected authenticator and [server.New] report no error; it then
    returns the bare engine together with a server built over the cache on
    that engine. *)
Theorem startup_succeeds_exactly_when (env : Env) (logger : Logger)
    (config : svcConfig)
    (Hconfig : env_config env = inl config) :
  forall datastore srv,
    result (buildServerAndDatastore env logger) = inl (datastore, srv) <->
    (engine_for config logger = Some datastore /\
     engine_error env config logger = None /\
     authenticator_error env config = None /\
     env_server_new env (dependencies_for config logger datastore)
                    (config_for config) = None /\
     srv = mkServer (dependencies_for config logger datastore) (config_for config)).
Proof.
  intros datastore srv.
  build_cases env config Hconfig;
    (split;
     [ intros H; inversion H; subst; repeat split; congruence
     | intros (He & Hee & Hae & Hs & ->); try discriminate; try congruence;
       inversion He; subst; try congruence ]).
Qed.

Lemma startup_succeeds_exactly_when_witness :
  result (buildServerAndDatastore (env_ok postgres_config) ZapLogger)
  = inl (PostgresDatastore "postgres://localhost:5432/openfga"
           [WithLogger ZapLogger; WithTracer NoopTracer],
         mkServer
           (dependencies_for postgres_config ZapLogger
              (PostgresDatastore "postgres://localhost:5432/openfga"
                 [WithLogger ZapLogger; WithTracer NoopTracer]))
           (config_for postgres_config)).
Proof.
  apply (startup_succeeds_exactly_when (env_ok postgres_config) ZapLogger
           postgres_config eq_refl).
  repeat split; reflexivity.
Defined.

(** X2. When the engine is in place and the constructor of the selected
    authenticator ([preshared] or [oidc]) reports an error, the build returns
    that error behind the prefix of the authenticator, and has called neither
    the interceptor constructor, nor the cache constructor, nor
    [server.New]. *)
Theorem authenticator_failure_is_fatal (env : Env) (logger : Logger)
    (config : svcConfig) (engine : Datastore) (e : string)
    (Hconfig : env_config env = inl config)
    (Hengine : engine_for config logger = Some engine)
    (Hbuilt : engine_error env config logger = None)
    (Hauth : authenticator_error env config = Some e) :
  result (buildServerAndDatastore env logger)
  = inr ("failed to initialize authenticator: " +:+ e) /\
  forallb (fun a => negb (existsb (String.eqb (package_of a))
                                  ["middleware"; "caching"; "server"]))
          (trace (buildServerAndDatastore env logger)) = true.
Proof.
  build_cases env config Hconfig; try discriminate;
    inversion Hauth; subst; split; reflexivity.
Qed.

Definition failing_oidc : Env :=
  mkEnv (inl (with_auth_method "oidc" default_config)) None "go1.19"
        (fun _ _ => None) (fun _ => None) (fun _ _ => Some "issuer unreachable")
        (fun _ _ => None) (fun _ => None) (fun _ => None) (fun _ => None).

Lemma authenticator_failure_is_fatal_witness :
  result (buildServerAndDatastore failing_oidc ZapLogger)
  = inr "failed to initialize authenticator: issuer unreachable".
Proof.
  apply (authenticator_failure_is_fatal failing_oidc ZapLogger
           (with_auth_method "oidc" default_config)
           (MemoryDatastore NoopTracer 100 100) "issuer unreachable");
    reflexivity.
Defined.

(** X3. [server.New] is only ever called once the engine and the selected
    authenticator have been built without error, and always with the same
    arguments: the cache of capacity [DatastoreMaxCacheSize] over the engine,
    the no-op tracer and meter, the base64 encoder, the authenticator of the
    configured method, the configured service name, ports, limits and
    timeout, and one authentication interceptor exactly when there is an
    authenticator. *)
Theorem server_new_arguments (env : Env) (logger : Logger)
    (deps : Dependencies) (cfg : Config)
    (Hnew : In (ServerNew deps cfg) (trace (buildServerAndDatastore env logger))) :
  exists config engine,
    env_config env = inl config /\
    engine_for config logger = Some engine /\
    engine_error env config logger = None /\
    authenticator_error env config = None /\
    deps = dependencies_for config logger engine /\
    cfg = config_for config /\
    cfg_UnaryInterceptors cfg = interceptors_for (dep_Authenticator deps).
Proof.
  destruct (env_config env) as [config | e] eqn:Hconfig.
  2: { revert Hnew. run_build. rewrite Hconfig. simpl.
       intros [H | []]; discriminate. }
  exists config. revert Hnew.
  build_cases env config Hconfig; intros Hnew;
    repeat (destruct Hnew as [Hnew | Hnew]; try discriminate);
    try contradiction;
    inversion Hnew; subst;
    eexists; repeat split; reflexivity.
Qed.

Lemma server_new_arguments_witness :
  exists config engine,
    env_config (env_ok postgres_config) = inl config /\
    engine_for config ZapLogger = Some engine /\
    dependencies_for postgres_config ZapLogger
      (PostgresDatastore "postgres://localhost:5432/openfga"
         [WithLogger ZapLogger; WithTracer NoopTracer])
    = dependencies_for config ZapLogger engine.
Proof.
  destruct (server_new_arguments (env_ok postgres_config) ZapLogger
              (dependencies_for postgres_config ZapLogger
                 (PostgresDatastore "postgres://localhost:5432/openfga"
                    [WithLogger ZapLogger; WithTracer NoopTracer]))
              (config_for postgres_config))
    as (config & engine & H1 & H2 & _ & _ & H3 & _).
  - simpl. do 7 right. left. reflexivity.
  - exists config, engine. split; [exact H1 | split; [exact H2 | exact H3]].
Defined.

(** The calls of the run/close lifecycle. *)
Definition lifecycle (a : Action) : bool :=
  match a with
  | ServerRun _ | ServerClose _ | DatastoreClose _ => true
  | _ => false
  end.

Definition lifecycle_calls (t : list Action) : list Action :=
  List.filter lifecycle t.

Lemma lifecycle_calls_app (t1 t2 : list Action) :
  lifecycle_calls (t1 ++ t2) = lifecycle_calls t1 ++ lifecycle_calls t2.
Proof. apply List.filter_app. Qed.

Lemma build_has_no_lifecycle (env : Env) (logger : Logger) :
  lifecycle_calls (trace (buildServerAndDatastore env logger)) = [].
Proof.
  destruct (env_config env) as [config | e] eqn:Hconfig.
  - build_cases env config Hconfig; reflexivity.
  - run_build. rewrite Hconfig. reflexivity.
Qed.

Lemma log_error_no_lifecycle (err : option string) (msg : string) :
  lifecycle_calls (log_error err msg) = [].
Proof. by destruct err. Qed.

(** X4. [main] runs the server exactly when the logger and the build
    succeeded. It then calls, in this order and once each, [Run] on the
    server, [Close] on the server and [Close] on the bare engine the build
    returned (not on the cache in front of it), whatever [Run] and the two
    [Close] report: their errors are logged and [main] returns. Otherwise
    [main] ends in the fatal exit having called none of the three. *)
Theorem main_lifecycle (env : Env) :
  match env_zap env, result (buildServerAndDatastore env ZapLogger) with
  | None, inl (datastore, srv) =>
      snd (main env) = Returned /\
      lifecycle_calls (fst (main env))
      = [ServerRun srv; ServerClose srv; DatastoreClose datastore] /\
      is_physical datastore = true /\
      (forall e, env_run env srv = Some e ->
                 In (LoggerError "failed to run openfga server" e) (fst (main env))) /\
      (forall e, env_close_server env srv = Some e ->
                 In (LoggerError "failed to gracefully shutdown openfga server" e)
                    (fst (main env))) /\
      (forall e, env_close_datastore env datastore = Some e ->
                 In (LoggerError "failed to gracefully shutdown openfga datastore" e)
                    (fst (main env)))
  | _, _ =>
      snd (main env) = Fatal /\ lifecycle_calls (fst (main env)) = []
  end.
Proof.
  pose proof (build_has_no_lifecycle env ZapLogger) as Hb.
  assert (Hphys : forall d s,
             result (buildServerAndDatastore env ZapLogger) = inl (d, s) ->
             is_physical d = true).
  { intros d s. destruct (env_config env) as [config | e] eqn:Hconfig.
    - build_cases env config Hconfig; intros H; inversion H; reflexivity.
    - run_build. rewrite Hconfig. discriminate. }
  unfold main, result, trace in *.
  destruct (env_zap env) as [ez|]; [by destruct (buildServerAndDatastore _ _) as [? [[]|]] |].
  destruct (buildServerAndDatastore env ZapLogger) as [tb [[d s] | e]];
    cbn [fst snd logger_Fatal] in *.
  - split; [reflexivity |]. split.
    + rewrite !lifecycle_calls_app, Hb, !log_error_no_lifecycle. reflexivity.
    + split; [by eapply Hphys |].
      split; [| split]; intros e He; rewrite He;
        rewrite !in_app_iff; simpl; tauto.
  - split; [reflexivity |]. rewrite !lifecycle_calls_app, Hb. reflexivity.
Qed.

Definition with_limits (maxTuples maxTypes : Z) (c : svcConfig) : svcConfig :=
  mkSvcConfig (DatastoreEngine c) (DatastoreConnectionURI c)
    (DatastoreMaxCacheSize c) (ServiceName c) (HTTPPort c)
    (RPCPort c) maxTuples maxTypes
    (ChangelogHorizonOffset c) (ResolveNodeLimit c) (RequestTimeout c)
    (AuthMethod c) (PresharedKeys c) (IssuerURL c) (Audience c).

(** X5. Options that do not reach the selected engine: with the [postgres]
    engine the per-write tuple limit and the per-model type limit change
    nothing in what the build calls and returns; with the [memory] engine the
    connection URI changes nothing. *)
Theorem options_the_engine_ignores (env : Env) (logger : Logger)
    (config : svcConfig) :
  (DatastoreEngine config = "postgres" ->
   forall maxTuples maxTypes,
     buildServerAndDatastore (with_config (with_limits maxTuples maxTypes config) env)
                             logger
     = buildServerAndDatastore (with_config config env) logger) /\
  (DatastoreEngine config = "memory" ->
   forall uri,
     buildServerAndDatastore (with_config (with_engine "memory" uri config) env) logger
     = buildServerAndDatastore (with_config config env) logger).
Proof.
  split.
  - intros He maxTuples maxTypes. run_build. rewrite He. simpl.
    destruct (env_postgres env _ _); simpl; [reflexivity |].
    destruct (String.eqb (AuthMethod config) "preshared");
      [ destruct (env_preshared env _)
      | destruct (String.eqb (AuthMethod config) "oidc");
        [ destruct (env_oidc env _ _) |] ];
      simpl; try reflexivity;
      destruct (env_server_new env _ _); reflexivity.
  - intros He uri. run_build. rewrite He. simpl.
    destruct (String.eqb (AuthMethod config) "preshared");
      [ destruct (env_preshared env _)
      | destruct (String.eqb (AuthMethod config) "oidc");
        [ destruct (env_oidc env _ _) |] ];
      simpl; try reflexivity;
      destruct (env_server_new env _ _); reflexivity.
Qed.

Lemma options_the_engine_ignores_witness :
  buildServerAndDatastore
    (with_config (with_limits 1 1 postgres_config) (env_ok postgres_config)) ZapLogger
  = buildServerAndDatastore (env_ok postgres_config) ZapLogger /\
  buildServerAndDatastore
    (with_config (with_engine "memory" "postgres://elsewhere" default_config)
                 (env_ok default_config)) ZapLogger
  = buildServerAndDatastore (env_ok default_config) ZapLogger.
Proof.
  split.
  - apply (proj1 (options_the_engine_ignores (env_ok postgres_config) ZapLogger
                    postgres_config)); reflexivity.
  - apply (proj2 (options_the_engine_ignores (env_ok default_config) ZapLogger
                    default_config)); reflexivity.
Defined.

(** The construction stage a call belongs to: engine, authenticator,
    interceptor, cache, server. *)
Definition stage (a : Action) : option nat :=
  match a with
  | MemoryNew _ _ | NewPostgresDatastore _ _ => Some 1
  | NewPresharedKeyAuthenticator _ | NewRemoteOidcAuthenticator _ _ => Some 2
  | NewAuthenticationInterceptor _ => Some 3
  | NewCachedOpenFGADatastore _ _ => Some 4
  | ServerNew _ _ => Some 5
  | _ => None
  end.

Fixpoint increasing (l : list nat) : bool :=
  match l with
  | a :: (b :: _) as rest => Nat.ltb a b && increasing rest
  | _ => true
  end.

(** X6. Whatever the environment, the build constructs in the order engine,
    authenticator, interceptor, cache, server, each at most once: no second
    engine, authenticator or server is ever built. A successful build has
    built exactly one engine, one cache and one server. *)
Theorem construction_order (env : Env) (logger : Logger) :
  let stages := omap stage (trace (buildServerAndDatastore env logger)) in
  increasing stages = true /\
  (forall datastore srv,
      result (buildServerAndDatastore env logger) = inl (datastore, srv) ->
      List.filter (fun n => negb (Nat.eqb n 2 || Nat.eqb n 3)) stages = [1; 4; 5]).
Proof.
  destruct (env_config env) as [config | e] eqn:Hconfig.
  - build_cases env config Hconfig;
      (split; [reflexivity | intros ? ? Hres; try discriminate; reflexivity]).
  - run_build. rewrite Hconfig. split; [reflexivity | discriminate].
Qed.

(** X14. Every error of the build names the stage that failed, and the
    stages fail in order: the configuration loader, then the engine name,
    then the engine constructor, then the authenticator constructor (only
    with the engine in place), then [server.New] (only with the engine and the
    authenticator in place). The message is the prefix of the stage followed
    by the error of the collaborator, or by the engine name for an unsupported
    engine. *)
Theorem startup_error_names_the_stage (env : Env) (logger : Logger)
    (msg : string)
    (Hfail : result (buildServerAndDatastore env logger) = inr msg) :
  (exists e, env_config env = inr e /\
             msg = "failed to process server config: " +:+ e) \/
  (exists config,
      env_config env = inl config /\
      ((engine_for config logger = None /\
        msg = "storage engine '" +:+ DatastoreEngine config +:+ "' is unsupported") \/
       (exists e, engine_error env config logger = Some e /\
                  msg = "failed to initialize postgres datastore: " +:+ e) \/
       (exists e engine,
           engine_for config logger = Some engine /\
           engine_error env config logger = None /\
           authenticator_error env config = Some e /\
           msg = "failed to initialize authenticator: " +:+ e) \/
       (exists e engine,
           engine_for config logger = Some engine /\
           engine_error env config logger = None /\
           authenticator_error env config = None /\
           env_server_new env (dependencies_for config logger engine)
                          (config_for config) = Some e /\
           msg = "failed to initialize openfga server: " +:+ e))).
Proof.
  destruct (env_config env) as [config | e] eqn:Hconfig.
  - right. exists config. split; [reflexivity |]. revert Hfail.
    build_cases env config Hconfig; intros Hfail; inversion Hfail; subst;
      try discriminate;
      first
        [ left; split; reflexivity
        | right; left; eexists; split; reflexivity
        | right; right; left; do 2 eexists; repeat split; reflexivity
        | right; right; right; do 2 eexists; repeat split; eassumption ].
  - left. exists e. split; [reflexivity |]. revert Hfail.
    run_build. rewrite Hconfig. simpl. intros H. by inversion H.
Qed.

Definition failing_server : Env :=
  mkEnv (inl default_config) None "go1.19"
        (fun _ _ => None) (fun _ => None) (fun _ _ => None)
        (fun _ _ => Some "address already in use")
        (fun _ => None) (fun _ => None) (fun _ => None).

Lemma startup_error_names_the_stage_witness :
  result (buildServerAndDatastore failing_server ZapLogger)
  = inr "failed to initialize openfga server: address already in use" /\
  exists config, env_config failing_server = inl config.
Proof.
  split; [reflexivity |].
  destruct (startup_error_names_the_stage failing_server ZapLogger
              "failed to initialize openfga server: address already in use" eq_refl)
    as [(e & He & _) | (config & Hc & _)].
  - discriminate He.
  - exists config. exact Hc.
Defined.

Lemma construction_order_witness :
  List.filter (fun n => negb (Nat.eqb n 2 || Nat.eqb n 3))
    (omap stage (trace (buildServerAndDatastore (env_ok postgres_config) ZapLogger)))
  = [1; 4; 5].
Proof.
  destruct (construction_order (env_ok postgres_config) ZapLogger) as [_ H].
  exact (H _ _ eq_refl).
Defined.

Lemma main_lifecycle_witness :
  snd (main (env_ok postgres_config)) = Returned /\
  lifecycle_calls (fst (main (env_ok postgres_config)))
  = [ ServerRun
        (mkServer
           (dependencies_for postgres_config ZapLogger
              (PostgresDatastore "postgres://localhost:5432/openfga"
                 [WithLogger ZapLogger; WithTracer NoopTracer]))
           (config_for postgres_config));
      ServerClose
        (mkServer
           (dependencies_for postgres_config ZapLogger
              (PostgresDatastore "postgres://localhost:5432/openfga"
                 [WithLogger ZapLogger; WithTracer NoopTracer]))
           (config_for postgres_config));
      DatastoreClose
        (PostgresDatastore "postgres://localhost:5432/openfga"
           [WithLogger ZapLogger; WithTracer NoopTracer]) ].
Proof.
  pose proof (main_lifecycle (env_ok postgres_config)) as H.
  simpl in H. destruct H as (H1 & H2 & _).
  split; [exact H1 | exact H2].
Defined.

End Openfga.

(** ** package storagewrappers: the bounded-concurrency tuple reader *)

Module StorageWrappers.

Definition timeWaitingSpanAttribute : string := "time_waiting".

(** [prometheus.HistogramOpts] of [boundedReadDelayMsHistogram]. The bucket
    boundaries are float64 constants with integer values; the bucket factor
    1.1 is kept as the fraction 11/10 and [time.Hour] in nanoseconds. *)
Record HistogramOpts := mkHistogramOpts {
  Name : string;
  Help : string;
  Buckets : list Z;
  NativeHistogramBucketFactor : Z * Z;
  NativeHistogramMaxBucketNumber : Z;
  NativeHistogramMinResetDuration : Z
}.

Definition boundedReadDelayMsHistogram : HistogramOpts :=
  {| Name := "datastore_bounded_read_delay_ms";
     Help := "Time spent waiting for Read, ReadUserTuple and ReadUsersetTuples calls to the datastore";
     Buckets := [1; 3; 5; 10; 25; 50; 100; 1000; 5000]%Z;
     NativeHistogramBucketFactor := (11, 10)%Z;
     NativeHistogramMaxBucketNumber := 100;
     NativeHistogramMinResetDuration := 3600 * 1000000000 |}.

(** *** package time *)

(** A reading of the monotonic clock, in nanoseconds. *)
Definition Time := Z.
(** [time.Duration]: an int64 count of nanoseconds. *)
Definition Duration := Z.

Definition minDuration : Duration := (- 2 ^ 63)%Z.
Definition maxDuration : Duration := (2 ^ 63 - 1)%Z.

(** [t.Sub(u)]: the difference, saturated to the range of [Duration]. *)
Definition Sub (t u : Time) : Duration :=
  if (t - u <? minDuration)%Z then minDuration
  else if (maxDuration <? t - u)%Z then maxDuration
  else (t - u)%Z.

(** [d.Milliseconds()]: [int64(d) / 1e6], Go's division truncating to zero. *)
Definition Milliseconds (d : Duration) : Z := (d ÷ 1000000)%Z.

(** [attribute.KeyValue], as built by [attribute.Int64(key, value)]. *)
Inductive KeyValue := Int64 (key : string) (value : Z).

(** [ctx.Err()] once the cancellation or deadline signal has fired. *)
Inductive CtxError := Canceled | DeadlineExceeded.

(** [make(chan struct{}, capacity)]: the elements carry no data, so a channel
    is its capacity and the number of elements buffered. *)
Record Chan := mkChan { chan_cap : nat; chan_len : nat }.

Definition make_chan (capacity : nat) : Chan := mkChan capacity 0.

Section Reader.
(** [openfgapb.TupleKey], [openfgapb.Tuple], [storage.TupleIterator],
    [storage.ReadUsersetTuplesFilter], the error values and the wrapped
    [storage.RelationshipTupleReader] are declared outside this package. *)
Context {TupleKey Tuple TupleIterator ReadUsersetTuplesFilter Err Wrapped : Type}.

(** Go's [error]: [None] is [nil]. *)
Definition error : Type := option Err.

(** A call of one of the three read methods of
    [storage.RelationshipTupleReader], with its arguments. *)
Inductive Call :=
| CallReadUserTuple (ctx : Context) (store : string) (tupleKey : TupleKey)
| CallRead (ctx : Context) (store : string) (tupleKey : TupleKey)
| CallReadUsersetTuples (ctx : Context) (store : string)
                        (filter : ReadUsersetTuplesFilter).

(** What such a call returns: a tuple pointer or a tuple iterator, paired
    with an error. *)
Inductive Result :=
| ResTuple (r : Tuple * error)
| ResIter (r : TupleIterator * error).

Definition call_ctx (c : Call) : Context :=
  match c with
  | CallReadUserTuple ctx _ _ | CallRead ctx _ _
  | CallReadUsersetTuples ctx _ _ => ctx
  end.

(** The kind of result of each method. *)
Definition fits (c : Call) (r : Result) : bool :=
  match c, r with
  | CallReadUserTuple _ _ _, ResTuple _ => true
  | CallRead _ _ _, ResIter _ => true
  | CallReadUsersetTuples _ _ _, ResIter _ => true
  | _, _ => false
  end.

(** *** Method bodies as programs

    The operations a method body performs on what it shares with the other
    goroutines (the limiter channel, the clock, the histogram, the span)
    and on the wrapped reader, each followed by the rest of the body. The
    receiver [b] is the one reader all the goroutines share: [LimiterSend]
    and [LimiterRecv] are the send and the receive on [b.limiter], and the
    [Wrapped] operations the calls of the methods of
    [b.RelationshipTupleReader]. *)
Inductive Prog (R : Type) : Type :=
| Ret (r : R)
| TimeNow (k : Time -> Prog R)
| LimiterSend (k : Prog R)
| LimiterRecv (k : Prog R)
| HistogramObserve (h : HistogramOpts) (v : Z) (k : Prog R)
| SpanSetAttributes (span : Span) (kv : list KeyValue) (k : Prog R)
| WrappedReadUserTuple (ctx : Context) (store : string) (tupleKey : TupleKey)
                       (k : Tuple * error -> Prog R)
| WrappedRead (ctx : Context) (store : string) (tupleKey : TupleKey)
              (k : TupleIterator * error -> Prog R)
| WrappedReadUsersetTuples (ctx : Context) (store : string)
                           (filter : ReadUsersetTuplesFilter)
                           (k : TupleIterator * error -> Prog R).
Arguments Ret {R} r.
Arguments TimeNow {R} k.
Arguments LimiterSend {R} k.
Arguments LimiterRecv {R} k.
Arguments HistogramObserve {R} h v k.
Arguments SpanSetAttributes {R} span kv k.
Arguments WrappedReadUserTuple {R} ctx store tupleKey k.
Arguments WrappedRead {R} ctx store tupleKey k.
Arguments WrappedReadUsersetTuples {R} ctx store filter k.

Fixpoint bind {A B} (m : Prog A) (f : A -> Prog B) : Prog B :=
  match m with
  | Ret a => f a
  | TimeNow k => TimeNow (fun t => bind (k t) f)
  | LimiterSend k => LimiterSend (bind k f)
  | LimiterRecv k => LimiterRecv (bind k f)
  | HistogramObserve h v k => HistogramObserve h v (bind k f)
  | SpanSetAttributes s kv k => SpanSetAttributes s kv (bind k f)
  | WrappedReadUserTuple ctx st tk k =>
      WrappedReadUserTuple ctx st tk (fun r => bind (k r) f)
  | WrappedRead ctx st tk k => WrappedRead ctx st tk (fun r => bind (k r) f)
  | WrappedReadUsersetTuples ctx st fl k =>
      WrappedReadUsersetTuples ctx st fl (fun r => bind (k r) f)
  end.

Notation "x <- m ;; k" := (bind m (fun x => k))
  (at level 100, m at next level, right associativity).
Notation "m ;;; k" := (bind m (fun _ => k))
  (at level 100, right associativity).

Definition now : Prog Time := TimeNow Ret.
Definition limiter_send : Prog unit := LimiterSend (Ret tt).
Definition limiter_recv : Prog unit := LimiterRecv (Ret tt).
Definition observe (h : HistogramOpts) (v : Z) : Prog unit :=
  HistogramObserve h v (Ret tt).
Definition set_attributes (span : Span) (kv : list KeyValue) : Prog unit :=
  SpanSetAttributes span kv (Ret tt).

(** [defer d] in front of [return e]: [e] is evaluated, then [d] runs, then
    the function returns the value of [e]. (A panic of [e] is outside of
    what is modelled here.) *)
Definition defer {R} (d : Prog unit) (e : Prog R) : Prog R :=
  r <- e ;; d ;;; Ret r.

(** [float64(timeWaiting)]: the conversion is exact below 2^53 in absolute
    value (see [Milliseconds_exact_float64]), so the observation is kept as
    the integer it denotes. *)
Definition float64 (v : Z) : Z := v.

Definition waitForLimiter (ctx : Context) : Prog unit :=
  start <- now ;;
  limiter_send ;;;
  end_ <- now ;;
  let timeWaiting := Milliseconds (Sub end_ start) in
  observe boundedReadDelayMsHistogram (float64 timeWaiting) ;;;
  let span := SpanFromContext ctx in
  set_attributes span [Int64 timeWaitingSpanAttribute timeWaiting].

Definition ReadUserTuple (ctx : Context) (store : string) (tupleKey : TupleKey)
  : Prog (Tuple * error) :=
  waitForLimiter ctx ;;;
  defer limiter_recv
    (WrappedReadUserTuple ctx store tupleKey Ret).

Definition Read (ctx : Context) (store : string) (tupleKey : TupleKey)
  : Prog (TupleIterator * error) :=
  waitForLimiter ctx ;;;
  defer limiter_recv
    (WrappedRead ctx store tupleKey Ret).

Definition ReadUsersetTuples (ctx : Context) (store : string)
           (filter : ReadUsersetTuplesFilter)
  : Prog (TupleIterator * error) :=
  waitForLimiter ctx ;;;
  defer limiter_recv
    (WrappedReadUsersetTuples ctx store filter Ret).

(** The struct and its constructor. *)
Record boundedConcurrencyTupleReader := mkReader {
  RelationshipTupleReader : Wrapped;
  limiter : Chan
}.

Definition NewBoundedConcurrencyTupleReader (wrapped : Wrapped)
           (concurrency : nat) : boundedConcurrencyTupleReader :=
  {| RelationshipTupleReader := wrapped;
     limiter := make_chan concurrency |}.

(** The body a goroutine runs for a call on the bounded reader. *)
Definition call_prog (c : Call) : Prog Result :=
  match c with
  | CallReadUserTuple ctx store tupleKey =>
      r <- ReadUserTuple ctx store tupleKey ;; Ret (ResTuple r)
  | CallRead ctx store tupleKey =>
      r <- Read ctx store tupleKey ;; Ret (ResIter r)
  | CallReadUsersetTuples ctx store filter =>
      r <- ReadUsersetTuples ctx store filter ;; Ret (ResIter r)
  end.

(** *** Goroutines sharing one reader

    What a goroutine has done is recorded as a list of operations; an
    operation that reads something from outside the goroutine carries what
    it read. *)
Inductive Op :=
| OpNow (t : Time)
| OpSend
| OpRecv
| OpObserve (h : HistogramOpts) (v : Z)
| OpSetAttributes (span : Span) (kv : list KeyValue)
| OpInvoke (wrapped : Wrapped) (c : Call)
| OpReturn (r : Result).

(** A goroutine executing a call: the rest of the method body, and whether
    it is inside the wrapped reader (the wrapped method at the head of
    [th_prog] has been called and has not returned). *)
Record Thread := mkThread { th_prog : Prog Result; th_inner : bool }.

Definition running (p : Prog Result) : Thread := mkThread p false.

(** The next operation of a goroutine that is not inside the wrapped
    reader. Calling the wrapped method moves it inside. *)
Definition perform (wrapped : Wrapped) (clock : Time) (th : Thread)
  : option (Op * Thread) :=
  if th_inner th then None
  else match th_prog th with
       | Ret _ => None
       | TimeNow k => Some (OpNow clock, running (k clock))
       | LimiterSend k => Some (OpSend, running k)
       | LimiterRecv k => Some (OpRecv, running k)
       | HistogramObserve h v k => Some (OpObserve h v, running k)
       | SpanSetAttributes span kv k =>
           Some (OpSetAttributes span kv, running k)
       | WrappedReadUserTuple ctx store tupleKey _ =>
           Some (OpInvoke wrapped (CallReadUserTuple ctx store tupleKey),
                 mkThread (th_prog th) true)
       | WrappedRead ctx store tupleKey _ =>
           Some (OpInvoke wrapped (CallRead ctx store tupleKey),
                 mkThread (th_prog th) true)
       | WrappedReadUsersetTuples ctx store filter _ =>
           Some (OpInvoke wrapped (CallReadUsersetTuples ctx store filter),
                 mkThread (th_prog th) true)
       end.

(** The wrapped method returns [r] to the goroutine that called it. *)
Definition resume (r : Result) (th : Thread) : option (Op * Thread) :=
  if th_inner th then
    match th_prog th, r with
    | WrappedReadUserTuple _ _ _ k, ResTuple x => Some (OpReturn r, running (k x))
    | WrappedRead _ _ _ k, ResIter x => Some (OpReturn r, running (k x))
    | WrappedReadUsersetTuples _ _ _ k, ResIter x => Some (OpReturn r, running (k x))
    | _, _ => None
    end
  else None.

(** A send on a buffered channel proceeds when the buffer has room, a
    receive when it holds an element; otherwise the goroutine stays
    blocked. *)
Definition chan_send (c : Chan) : option Chan :=
  if Nat.ltb (chan_len c) (chan_cap c) then Some (mkChan (chan_cap c) (S (chan_len c)))
  else None.

Definition chan_recv (c : Chan) : option Chan :=
  match chan_len c with
  | 0 => None
  | S n => Some (mkChan (chan_cap c) n)
  end.

Definition limiter_after (op : Op) (c : Chan) : option Chan :=
  match op with
  | OpSend => chan_send c
  | OpRecv => chan_recv c
  | _ => Some c
  end.

Record State := mkState {
  st_reader : boundedConcurrencyTupleReader;
  st_clock : Time;
  st_done : list (nat * CtxError);   (* contexts whose signal has fired *)
  st_threads : list Thread;
  st_log : list (nat * Op)           (* who did what, oldest first *)
}.

(** What the scheduler and the environment may do next. *)
Inductive Event :=
| EvStep (i : nat)                       (* goroutine i performs its next operation *)
| EvWrappedReturn (i : nat) (r : Result) (* the wrapped reader returns r to goroutine i *)
| EvHandoff (i j : nat)                  (* a sender meets a receiver parked on the empty channel *)
| EvTick (d : Z)                         (* d nanoseconds pass *)
| EvCancel (key : nat) (cause : CtxError). (* a context is cancelled or its deadline passes *)

(** [ctx.Err()]: the cause that fired first, [None] while none has. *)
Fixpoint ctx_err (done : list (nat * CtxError)) (key : nat) : option CtxError :=
  match done with
  | [] => None
  | (k, cause) :: rest => if decide (k = key) then Some cause else ctx_err rest key
  end.

Definition step (e : Event) (s : State) : option State :=
  let b := st_reader s in
  match e with
  | EvStep i =>
      th ← st_threads s !! i;
      '(op, th') ← perform (RelationshipTupleReader b) (st_clock s) th;
      ch ← limiter_after op (limiter b);
      Some (mkState (mkReader (RelationshipTupleReader b) ch) (st_clock s)
              (st_done s) (<[i:=th']> (st_threads s)) (st_log s ++ [(i, op)]))
  | EvWrappedReturn i r =>
      th ← st_threads s !! i;
      '(op, th') ← resume r th;
      Some (mkState b (st_clock s) (st_done s)
              (<[i:=th']> (st_threads s)) (st_log s ++ [(i, op)]))
  | EvHandoff i j =>
      if decide (i = j) then None
      else match chan_len (limiter b) with
           | S _ => None
           | 0 =>
               thi ← st_threads s !! i;
               thj ← st_threads s !! j;
               match perform (RelationshipTupleReader b) (st_clock s) thi,
                     perform (RelationshipTupleReader b) (st_clock s) thj with
               | Some (OpSend, thi'), Some (OpRecv, thj') =>
                   Some (mkState b (st_clock s) (st_done s)
                           (<[j:=thj']> (<[i:=thi']> (st_threads s)))
                           (st_log s ++ [(i, OpSend); (j, OpRecv)]))
               | _, _ => None
               end
           end
  | EvTick d =>
      if (0 <=? d)%Z
      then Some (mkState b (st_clock s + d)%Z (st_done s) (st_threads s) (st_log s))
      else None
  | EvCancel key cause =>
      match ctx_err (st_done s) key with
      | Some _ => Some s
      | None => Some (mkState b (st_clock s) (st_done s ++ [(key, cause)])
                        (st_threads s) (st_log s))
      end
  end.

Fixpoint run (sched : list Event) (s : State) : option State :=
  match sched with
  | [] => Some s
  | e :: rest => s' ← step e s; run rest s'
  end.

(** A reader fresh from [NewBoundedConcurrencyTupleReader], the clock at
    [t0], and one goroutine per call, each at the top of its method. *)
Definition start (wrapped : Wrapped) (concurrency : nat) (t0 : Time)
           (calls : list Call) : State :=
  mkState (NewBoundedConcurrencyTupleReader wrapped concurrency) t0 []
          ((fun c => running (call_prog c)) <$> calls) [].

(** *** Observations *)

Fixpoint count_if {A} (f : A -> bool) (l : list A) : nat :=
  match l with
  | [] => 0
  | x :: l => (if f x then 1 else 0) + count_if f l
  end.

(** Calls executing against the wrapped reader. *)
Definition executing (s : State) : nat := count_if th_inner (st_threads s).

(** Units of the limiter held. *)
Definition held (s : State) : nat := chan_len (limiter (st_reader s)).
Definition capacity (s : State) : nat := chan_cap (limiter (st_reader s)).

(** The operations of goroutine [i], oldest first. *)
Definition ops_of (i : nat) (log : list (nat * Op)) : list Op :=
  omap (fun x => if decide (fst x = i) then Some (snd x) else None) log.

Definition returned (s : State) (i : nat) (r : Result) : Prop :=
  st_threads s !! i = Some (running (Ret r)).

(** Goroutine [i] is at the send of [waitForLimiter]. *)
Definition at_send (s : State) (i : nat) : Prop :=
  exists k, st_threads s !! i = Some (running (LimiterSend k)).

(** *** Where a call stands

    A call goes through the phases below, in this order; a phase carries
    the clock readings and the wrapped reader's result obtained so far. *)
Inductive Phase :=
| PhStart                                    (* entering waitForLimiter *)
| PhSend (t1 : Time)                         (* at the send on the limiter *)
| PhEnd (t1 : Time)                          (* sent; about to read the clock *)
| PhObserve (t1 t2 : Time)                   (* about to observe the histogram *)
| PhSetAttributes (t1 t2 : Time)             (* about to set the span attribute *)
| PhInvoke (t1 t2 : Time)                    (* about to call the wrapped reader *)
| PhInner (t1 t2 : Time)                     (* inside the wrapped reader *)
| PhRecv (t1 t2 : Time) (r : Result)         (* deferred receive pending *)
| PhDone (t1 t2 : Time) (r : Result).        (* returned r *)

Definition waited (t1 t2 : Time) : Z := Milliseconds (Sub t2 t1).

Definition wait_ops (c : Call) (t1 t2 : Time) : list Op :=
  [ OpNow t1; OpSend; OpNow t2;
    OpObserve boundedReadDelayMsHistogram (waited t1 t2);
    OpSetAttributes (SpanFromContext (call_ctx c))
                    [Int64 timeWaitingSpanAttribute (waited t1 t2)] ].

(** The operations a call has performed when it stands at a phase. *)
Definition trace_of (w : Wrapped) (c : Call) (ph : Phase) : list Op :=
  match ph with
  | PhStart => []
  | PhSend t1 => [OpNow t1]
  | PhEnd t1 => [OpNow t1; OpSend]
  | PhObserve t1 t2 => [OpNow t1; OpSend; OpNow t2]
  | PhSetAttributes t1 t2 =>
      [OpNow t1; OpSend; OpNow t2;
       OpObserve boundedReadDelayMsHistogram (waited t1 t2)]
  | PhInvoke t1 t2 => wait_ops c t1 t2
  | PhInner t1 t2 => wait_ops c t1 t2 ++ [OpInvoke w c]
  | PhRecv t1 t2 r => wait_ops c t1 t2 ++ [OpInvoke w c; OpReturn r]
  | PhDone t1 t2 r => wait_ops c t1 t2 ++ [OpInvoke w c; OpReturn r; OpRecv]
  end.

(** A goroutine after one more operation of its record. *)
Definition apply_op (w : Wrapped) (th : Thread) (op : Op) : Thread :=
  let after (o : option (Op * Thread)) :=
    match o with Some (_, th') => th' | None => th end in
  match op with
  | OpReturn r => after (resume r th)
  | OpNow t => after (perform w t th)
  | _ => after (perform w 0%Z th)
  end.

(** The goroutine of a call that stands at a phase: its method body, run
    through the operations of the phase. *)
Definition thread_at (w : Wrapped) (c : Call) (ph : Phase) : Thread :=
  fold_left (apply_op w) (trace_of w c ph) (running (call_prog c)).

(** Between the send and the deferred receive a call holds a unit. *)
Definition holds (ph : Phase) : bool :=
  match ph with
  | PhEnd _ | PhObserve _ _ | PhSetAttributes _ _ | PhInvoke _ _
  | PhInner _ _ | PhRecv _ _ _ => true
  | PhStart | PhSend _ | PhDone _ _ _ => false
  end.

Definition is_inner (ph : Phase) : bool :=
  match ph with PhInner _ _ => true | _ => false end.

(** The readings of a phase are ordered and in the past, and the result it
    carries is of the kind the method returns. *)
Definition phase_ok (c : Call) (clock : Time) (ph : Phase) : Prop :=
  match ph with
  | PhStart => True
  | PhSend t1 | PhEnd t1 => (t1 <= clock)%Z
  | PhObserve t1 t2 | PhSetAttributes t1 t2 | PhInvoke t1 t2 | PhInner t1 t2 =>
      (t1 <= t2 <= clock)%Z
  | PhRecv t1 t2 r | PhDone t1 t2 r => (t1 <= t2 <= clock)%Z /\ fits c r = true
  end.

(** The phase after the next operation of the goroutine itself. *)
Definition next_phase (clock : Time) (ph : Phase) : option Phase :=
  match ph with
  | PhStart => Some (PhSend clock)
  | PhSend t1 => Some (PhEnd t1)
  | PhEnd t1 => Some (PhObserve t1 clock)
  | PhObserve t1 t2 => Some (PhSetAttributes t1 t2)
  | PhSetAttributes t1 t2 => Some (PhInvoke t1 t2)
  | PhInvoke t1 t2 => Some (PhInner t1 t2)
  | PhInner _ _ => None
  | PhRecv t1 t2 r => Some (PhDone t1 t2 r)
  | PhDone _ _ _ => None
  end.

(** The operation that leads into a phase. *)
Definition last_op (w : Wrapped) (c : Call) (ph : Phase) : option Op :=
  last (trace_of w c ph).

Lemma perform_thread_at w c clock ph :
  phase_ok c clock ph ->
  perform w clock (thread_at w c ph)
  = ph' ← next_phase clock ph;
    op ← last_op w c ph';
    Some (op, thread_at w c ph').
Proof.
  destruct ph as [| | | | | | | ? ? r | ? ? r]; simpl; intros Hok;
    try (destruct c; reflexivity);
    destruct Hok as [_ Hfit]; destruct c, r; try discriminate; reflexivity.
Qed.

Lemma resume_thread_at w c clock ph r :
  phase_ok c clock ph ->
  resume r (thread_at w c ph)
  = match ph with
    | PhInner t1 t2 =>
        if fits c r then Some (OpReturn r, thread_at w c (PhRecv t1 t2 r))
        else None
    | _ => None
    end.
Proof.
  destruct ph as [| | | | | | | ? ? r' | ? ? r']; simpl; intros Hok;
    try (destruct c; reflexivity);
    try (destruct c, r; reflexivity);
    destruct Hok as [_ Hfit]; destruct c, r'; try discriminate; reflexivity.
Qed.

Lemma th_inner_thread_at w c clock ph :
  phase_ok c clock ph -> th_inner (thread_at w c ph) = is_inner ph.
Proof.
  destruct ph as [| | | | | | | ? ? r' | ? ? r']; simpl; intros Hok;
    try (destruct c; reflexivity);
    destruct Hok as [_ Hfit]; destruct c, r'; try discriminate; reflexivity.
Qed.

Lemma thread_at_done w c t1 t2 r :
  fits c r = true -> thread_at w c (PhDone t1 t2 r) = running (Ret r).
Proof. destruct c, r; try discriminate; reflexivity. Qed.

Lemma thread_at_send w c t1 :
  exists k, thread_at w c (PhSend t1) = running (LimiterSend k).
Proof. destruct c; eexists; reflexivity. Qed.

(** The phase is read off the head of the program: distinct phases of a
    call are distinct goroutine states, up to the readings not yet used. *)
Lemma thread_at_returned w c clock ph r :
  phase_ok c clock ph ->
  thread_at w c ph = running (Ret r) ->
  exists t1 t2, ph = PhDone t1 t2 r.
Proof.
  destruct ph as [| | | | | | | ? ? r' | t1 t2 r']; simpl; intros Hok;
    try (destruct c; discriminate);
    destruct Hok as [_ Hfit]; destruct c, r'; try discriminate;
    unfold thread_at; simpl; intros H; inversion H; eauto.
Qed.

Lemma thread_at_at_send w c clock ph k :
  phase_ok c clock ph ->
  thread_at w c ph = running (LimiterSend k) ->
  exists t1, ph = PhSend t1.
Proof.
  destruct ph as [| | | | | | | ? ? r' | t1 t2 r']; simpl; intros Hok;
    try (destruct c; discriminate); eauto;
    destruct Hok as [_ Hfit]; destruct c, r'; discriminate.
Qed.

(** *** The invariant

    A state is described by the phase of each of its calls. *)
Definition threads_of (w : Wrapped) (abs : list (Call * Phase)) : list Thread :=
  (fun x => thread_at w (fst x) (snd x)) <$> abs.

Definition holders (abs : list (Call * Phase)) : nat :=
  count_if (fun x => holds (snd x)) abs.

Record Inv (w : Wrapped) (cap : nat) (calls : list Call)
           (s : State) (abs : list (Call * Phase)) : Prop := mkInv {
  inv_wrapped : RelationshipTupleReader (st_reader s) = w;
  inv_cap : capacity s = cap;
  inv_calls : fst <$> abs = calls;
  inv_threads : st_threads s = threads_of w abs;
  inv_ops : forall i c ph, abs !! i = Some (c, ph) ->
                           ops_of i (st_log s) = trace_of w c ph;
  inv_ok : forall i c ph, abs !! i = Some (c, ph) ->
                          phase_ok c (st_clock s) ph;
  inv_held : held s = holders abs;
  inv_bound : held s <= cap
}.

Lemma count_if_insert {A} (f : A -> bool) (l : list A) : forall i x y,
  l !! i = Some x ->
  count_if f (<[i:=y]> l) + (if f x then 1 else 0)
  = count_if f l + (if f y then 1 else 0).
Proof.
  induction l as [|a l IH]; intros [|i] x y Hi; simpl in *; try discriminate.
  - inversion Hi; subst. lia.
  - specialize (IH i x y Hi). lia.
Qed.

Lemma count_if_lookup {A} (f : A -> bool) (l : list A) : forall i x,
  l !! i = Some x -> f x = true -> 1 <= count_if f l.
Proof.
  induction l as [|a l IH]; intros [|i] x Hi Hf; simpl in *; try discriminate.
  - inversion Hi; subst. rewrite Hf. lia.
  - specialize (IH i x Hi Hf). lia.
Qed.

Lemma count_if_le {A} (f g : A -> bool) (l : list A) :
  (forall x, f x = true -> g x = true) -> count_if f l <= count_if g l.
Proof.
  intros Hfg. induction l as [|a l IH]; simpl; [lia |].
  destruct (f a) eqn:Hf; [rewrite (Hfg _ Hf) |]; destruct (g a); lia.
Qed.

Lemma count_if_fmap {A B} (f : B -> bool) (g : A -> B) (l : list A) :
  count_if f (g <$> l) = count_if (fun x => f (g x)) l.
Proof. induction l as [|a l IH]; simpl; [done | f_equal; apply IH]. Qed.

Lemma count_if_ext_in {A} (f g : A -> bool) (l : list A) :
  (forall i x, l !! i = Some x -> f x = g x) -> count_if f l = count_if g l.
Proof.
  induction l as [|a l IH]; intros H; simpl; [done |].
  rewrite (H 0 a eq_refl). rewrite IH; [done |].
  intros i x Hi. apply (H (S i) x Hi).
Qed.

Lemma ops_of_app i log1 log2 :
  ops_of i (log1 ++ log2) = ops_of i log1 ++ ops_of i log2.
Proof. apply omap_app. Qed.

Lemma ops_of_snoc i log j op :
  ops_of i (log ++ [(j, op)])
  = ops_of i log ++ (if decide (j = i) then [op] else []).
Proof.
  rewrite ops_of_app. f_equal. unfold ops_of. simpl. by destruct (decide (j = i)).
Qed.

Lemma phase_ok_mono c clock clock' ph :
  phase_ok c clock ph -> (clock <= clock')%Z -> phase_ok c clock' ph.
Proof. destruct ph; simpl; intros; try split; try tauto; lia. Qed.

Lemma next_phase_sound w c clock ph ph' :
  phase_ok c clock ph ->
  next_phase clock ph = Some ph' ->
  exists op, last_op w c ph' = Some op /\
             trace_of w c ph' = trace_of w c ph ++ [op] /\
             phase_ok c clock ph'.
Proof.
  destruct ph; simpl; intros Hok Hn; inversion Hn; subst; simpl;
    eexists; (split; [reflexivity |]); (split; [reflexivity |]);
    simpl; try tauto; lia.
Qed.

Lemma threads_of_lookup w abs i c ph :
  abs !! i = Some (c, ph) -> threads_of w abs !! i = Some (thread_at w c ph).
Proof. intros H. unfold threads_of. by rewrite list_lookup_fmap, H. Qed.

Lemma threads_of_lookup_inv w abs i th :
  threads_of w abs !! i = Some th ->
  exists c ph, abs !! i = Some (c, ph) /\ th = thread_at w c ph.
Proof.
  unfold threads_of. rewrite list_lookup_fmap.
  destruct (abs !! i) as [[c ph]|]; simpl; intros H; inversion H; eauto.
Qed.

(** One call moves from [ph] to [ph'] by the operation [op]; the others
    stay. *)
Lemma inv_advance w cap calls s abs i c ph ph' op len' :
  Inv w cap calls s abs ->
  abs !! i = Some (c, ph) ->
  phase_ok c (st_clock s) ph' ->
  trace_of w c ph' = trace_of w c ph ++ [op] ->
  len' + (if holds ph then 1 else 0) = held s + (if holds ph' then 1 else 0) ->
  len' <= cap ->
  Inv w cap calls
      (mkState (mkReader w (mkChan cap len')) (st_clock s) (st_done s)
               (<[i:=thread_at w c ph']> (st_threads s)) (st_log s ++ [(i, op)]))
      (<[i:=(c, ph')]> abs).
Proof.
  intros [Hw Hcap Hcalls Hth Hops Hok Hheld Hbound] Hi Hok' Htr Hlen Hle.
  split; simpl; try done.
  - rewrite list_fmap_insert. simpl. rewrite <- Hcalls.
    apply list_insert_id. by rewrite list_lookup_fmap, Hi.
  - rewrite Hth. unfold threads_of. by rewrite list_fmap_insert.
  - intros j c' ph'' Hj. rewrite ops_of_snoc.
    destruct (decide (i = j)) as [-> | Hne].
    + rewrite list_lookup_insert_eq in Hj by (by eapply lookup_lt_Some).
      inversion Hj; subst. by rewrite (Hops _ _ _ Hi), Htr.
    + rewrite list_lookup_insert_ne in Hj by done.
      rewrite app_nil_r. by eapply Hops.
  - intros j c' ph'' Hj.
    destruct (decide (i = j)) as [-> | Hne].
    + rewrite list_lookup_insert_eq in Hj by (by eapply lookup_lt_Some).
      by inversion Hj; subst.
    + rewrite list_lookup_insert_ne in Hj by done. by eapply Hok.
  - unfold held, holders in *. simpl.
    pose proof (count_if_insert (fun x => holds (snd x)) abs i (c, ph) (c, ph') Hi) as Hc.
    simpl in Hc. lia.
Qed.

Lemma holders_lookup abs i c ph :
  abs !! i = Some (c, ph) -> holds ph = true -> 1 <= holders abs.
Proof.
  intros Hi Hh. unfold holders.
  by apply (count_if_lookup (fun x => holds (snd x)) abs i (c, ph)).
Qed.

(** A goroutine whose next operation is the deferred receive holds a unit. *)
Lemma perform_recv_holds w c clock ph th' :
  phase_ok c clock ph ->
  perform w clock (thread_at w c ph) = Some (OpRecv, th') ->
  holds ph = true.
Proof.
  intros Hok. rewrite (perform_thread_at _ _ _ _ Hok).
  destruct ph; simpl; try done; destruct c; simpl; discriminate.
Qed.

(** No receiver is ever parked on the empty limiter, so no send is ever
    completed by a hand-off: a send needs room in the buffer. *)
Lemma no_handoff w cap calls s abs i j :
  Inv w cap calls s abs -> step (EvHandoff i j) s = None.
Proof.
  intros HI.
  destruct s as [[w0 [cp ln]] clock done threads log].
  pose proof HI as [Hw Hcap Hcalls Hth Hops Hok Hheld Hbound].
  unfold held, capacity in *. simpl in *. subst w0 cp.
  destruct (decide (i = j)); [done |].
  destruct ln; [| done].
  destruct (threads !! i) as [thi|] eqn:Hi; simpl; [| done].
  destruct (threads !! j) as [thj|] eqn:Hj; simpl; [| done].
  rewrite Hth in Hj. apply threads_of_lookup_inv in Hj as (c & ph & Hj & ->).
  destruct (perform w clock thi) as [[[] thi']|]; try done.
  destruct (perform w clock (thread_at w c ph)) as [[[] thj']|] eqn:Hp; try done.
  apply (perform_recv_holds _ _ _ _ _ (Hok _ _ _ Hj)) in Hp.
  pose proof (holders_lookup _ _ _ _ Hj Hp). lia.
Qed.

Lemma step_inv w cap calls s abs e s' :
  Inv w cap calls s abs ->
  step e s = Some s' ->
  exists abs', Inv w cap calls s' abs'.
Proof.
  intros HI Hstep.
  destruct s as [[w0 [cp ln]] clock done threads log].
  pose proof HI as [Hw Hcap Hcalls Hth Hops Hok Hheld Hbound].
  unfold held, capacity in *. simpl in *. subst w0 cp.
  destruct e as [i | i r | i j | d | key cause]; simpl in Hstep.
  - (* the goroutine's own operation *)
    destruct (threads !! i) as [th|] eqn:Hi; simpl in Hstep; [| discriminate].
    rewrite Hth in Hi. apply threads_of_lookup_inv in Hi as (c & ph & Hi & ->).
    rewrite (perform_thread_at _ _ _ _ (Hok _ _ _ Hi)) in Hstep.
    destruct (next_phase clock ph) as [ph'|] eqn:Hn; simpl in Hstep; [| discriminate].
    destruct (next_phase_sound w c clock ph ph' (Hok _ _ _ Hi) Hn)
      as (op & Hl & Htr & Hok').
    rewrite Hl in Hstep. simpl in Hstep.
    destruct (limiter_after op (mkChan cap ln)) as [ch|] eqn:Hch;
      simpl in Hstep; [| discriminate].
    inversion Hstep; subst s'. clear Hstep.
    exists (<[i:=(c, ph')]> abs).
    assert (Hlen : chan_cap ch = cap /\ chan_len ch <= cap /\
                   chan_len ch + (if holds ph then 1 else 0)
                   = ln + (if holds ph' then 1 else 0)).
    { destruct ph; simpl in Hn; inversion Hn; subst ph';
        unfold last_op in Hl; simpl in Hl; inversion Hl; subst op;
        simpl in Hch; unfold chan_send, chan_recv in Hch; simpl in Hch;
        try (inversion Hch; subst ch; simpl; lia).
      - destruct (Nat.ltb_spec ln cap); inversion Hch; subst ch; simpl; lia.
      - destruct ln; inversion Hch; subst ch; simpl; lia. }
    destruct ch as [cp' ln']. simpl in Hlen. destruct Hlen as (-> & Hle & Hlen).
    by apply (inv_advance w cap calls _ abs i c ph ph' op ln' HI Hi).
  - (* the wrapped reader returns *)
    destruct (threads !! i) as [th|] eqn:Hi; simpl in Hstep; [| discriminate].
    rewrite Hth in Hi. apply threads_of_lookup_inv in Hi as (c & ph & Hi & ->).
    rewrite (resume_thread_at _ _ _ _ _ (Hok _ _ _ Hi)) in Hstep.
    destruct ph as [| | | | | | t1 t2 | |]; try discriminate.
    destruct (fits c r) eqn:Hfit; simpl in Hstep; [| discriminate].
    inversion Hstep; subst s'. clear Hstep.
    exists (<[i:=(c, PhRecv t1 t2 r)]> abs).
    apply (inv_advance w cap calls _ abs i c (PhInner t1 t2) (PhRecv t1 t2 r)
             (OpReturn r) ln HI Hi); simpl; try done.
    split; [| done]. apply (Hok _ _ _ Hi).
  - (* a receiver parked on the empty channel: there is none *)
    pose proof (no_handoff _ _ _ _ _ i j HI) as Hno. simpl in Hno.
    rewrite Hno in Hstep. discriminate.
  - (* time passes *)
    destruct (Z.leb_spec 0 d); [| discriminate].
    inversion Hstep; subst s'. exists abs. split; simpl; try done.
    intros i c ph Hi. eapply phase_ok_mono; [by eapply Hok | lia].
  - (* a context is cancelled *)
    destruct (ctx_err done key); inversion Hstep; subst s'; exists abs; done.
Qed.

Definition abs_start (calls : list Call) : list (Call * Phase) :=
  (fun c => (c, PhStart)) <$> calls.

Lemma count_if_none {A} (f : A -> bool) (l : list A) :
  (forall x, f x = false) -> count_if f l = 0.
Proof. intros H. induction l as [|a l IH]; simpl; [done |]. by rewrite H, IH. Qed.

Lemma inv_start w cap t0 calls :
  Inv w cap calls (start w cap t0 calls) (abs_start calls).
Proof.
  split; simpl; try done.
  - unfold abs_start. rewrite <- list_fmap_compose.
    rewrite <- (list_fmap_id calls) at 2. by apply list_fmap_ext.
  - unfold threads_of, abs_start. rewrite <- list_fmap_compose.
    by apply list_fmap_ext.
  - intros i c ph Hi. unfold abs_start in Hi. rewrite list_lookup_fmap in Hi.
    destruct (calls !! i); inversion Hi; subst. done.
  - intros i c ph Hi. unfold abs_start in Hi. rewrite list_lookup_fmap in Hi.
    destruct (calls !! i); inversion Hi; subst. done.
  - unfold held, holders, abs_start. simpl. rewrite count_if_fmap. simpl.
    symmetry. by apply count_if_none.
  - unfold held. simpl. lia.
Qed.

Lemma run_inv w cap calls sched : forall s abs s',
  Inv w cap calls s abs ->
  run sched s = Some s' ->
  exists abs', Inv w cap calls s' abs'.
Proof.
  induction sched as [|e sched IH]; intros s abs s' HI Hrun; simpl in Hrun.
  - inversion Hrun; subst. eauto.
  - destruct (step e s) as [s1|] eqn:Hs; simpl in Hrun; [| discriminate].
    destruct (step_inv _ _ _ _ _ _ _ HI Hs) as [abs1 HI1]. eauto.
Qed.

(** Every state a schedule leads to is described by phases. *)
Lemma reachable_inv w cap t0 calls sched s :
  run sched (start w cap t0 calls) = Some s ->
  exists abs, Inv w cap calls s abs.
Proof. intros H. eapply run_inv; [apply inv_start | exact H]. Qed.

(** *** What the record of a call shows *)

Definition observations (ops : list Op) : list (HistogramOpts * Z) :=
  omap (fun op => match op with OpObserve h v => Some (h, v) | _ => None end) ops.

Definition attributes (ops : list Op) : list (Span * list KeyValue) :=
  omap (fun op => match op with
                  | OpSetAttributes span kv => Some (span, kv)
                  | _ => None
                  end) ops.

Definition sends (ops : list Op) : nat :=
  count_if (fun op => match op with OpSend => true | _ => false end) ops.

Definition receives (ops : list Op) : nat :=
  count_if (fun op => match op with OpRecv => true | _ => false end) ops.

Definition invocations (ops : list Op) : list (Wrapped * Call) :=
  omap (fun op => match op with OpInvoke w c => Some (w, c) | _ => None end) ops.

(** Calls that have returned to their caller. *)
Definition has_returned (th : Thread) : bool :=
  match th_prog th with
  | Ret _ => negb (th_inner th)
  | _ => false
  end.

Definition returned_calls (s : State) : nat := count_if has_returned (st_threads s).

(** Calls that have returned an iterator with a nil error: the iterator is in
    the caller's hands, and the method has performed no operation on it. *)
Definition handed_out (th : Thread) : bool :=
  match th_prog th with
  | Ret (ResIter (_, None)) => negb (th_inner th)
  | _ => false
  end.

Definition iterators_handed_out (s : State) : nat :=
  count_if handed_out (st_threads s).

Lemma inv_lookup_call w cap calls s abs i c :
  Inv w cap calls s abs ->
  calls !! i = Some c ->
  exists ph, abs !! i = Some (c, ph).
Proof.
  intros HI Hc. rewrite <- (inv_calls _ _ _ _ _ HI) in Hc.
  rewrite list_lookup_fmap in Hc.
  destruct (abs !! i) as [[c' ph]|]; inversion Hc; subst. eauto.
Qed.

Lemma inv_lookup_thread w cap calls s abs i th :
  Inv w cap calls s abs ->
  st_threads s !! i = Some th ->
  exists c ph, abs !! i = Some (c, ph) /\ calls !! i = Some c /\
               th = thread_at w c ph /\ phase_ok c (st_clock s) ph /\
               ops_of i (st_log s) = trace_of w c ph.
Proof.
  intros HI Hth. rewrite (inv_threads _ _ _ _ _ HI) in Hth.
  apply threads_of_lookup_inv in Hth as (c & ph & Hi & ->).
  exists c, ph. repeat split; try done.
  - rewrite <- (inv_calls _ _ _ _ _ HI), list_lookup_fmap. by rewrite Hi.
  - by eapply inv_ok.
  - by eapply inv_ops.
Qed.

Lemma inv_executing w cap calls s abs :
  Inv w cap calls s abs -> executing s <= held s.
Proof.
  intros HI. unfold executing.
  rewrite (inv_threads _ _ _ _ _ HI), (inv_held _ _ _ _ _ HI).
  unfold threads_of, holders. rewrite count_if_fmap.
  rewrite (count_if_ext_in _ (fun x => is_inner (snd x))).
  - apply count_if_le. intros [c []]; simpl; done.
  - intros i [c ph] Hi. simpl. eapply th_inner_thread_at. by eapply inv_ok.
Qed.

(** C1. Whatever the capacity [C] given to [NewBoundedConcurrencyTupleReader],
    the calls issued on the reader and the interleaving of their operations,
    in every state reached the number of calls executing against the wrapped
    reader is at most the number of units held in the limiter, which is at
    most [C]; and a call that is executing against the wrapped reader has
    completed its send on the limiter, after which it called the wrapped
    reader, and has not yet received from the limiter. *)
Theorem at_most_capacity_calls_execute (w : Wrapped) (C : nat) (t0 : Time)
    (calls : list Call) (sched : list Event) (s : State)
    (Hrun : run sched (start w C t0 calls) = Some s) :
  capacity s = C /\
  executing s <= held s /\
  held s <= C /\
  (forall i th,
      st_threads s !! i = Some th -> th_inner th = true ->
      exists c t1 t2,
        calls !! i = Some c /\
        ops_of i (st_log s) = wait_ops c t1 t2 ++ [OpInvoke w c] /\
        sends (ops_of i (st_log s)) = 1 /\
        receives (ops_of i (st_log s)) = 0).
Proof.
  destruct (reachable_inv _ _ _ _ _ _ Hrun) as [abs HI].
  split; [by eapply inv_cap |].
  split; [by eapply inv_executing |].
  split; [by eapply inv_bound |].
  intros i th Hth Hin.
  destruct (inv_lookup_thread _ _ _ _ _ _ _ HI Hth)
    as (c & ph & Hi & Hc & -> & Hok & Hops).
  rewrite (th_inner_thread_at _ _ _ _ Hok) in Hin.
  destruct ph; try discriminate.
  exists c, t1, t2. rewrite Hops. by repeat split.
Qed.

(** C5. A call on the bounded reader that has returned [r] has called the
    wrapped reader exactly once, with its own method, context, store and key
    or filter, and [r] is, unchanged, what the wrapped reader returned to it;
    everything else the call did is the wait on the limiter with its
    telemetry, before, and the release of the unit, after. *)
Theorem result_is_the_wrapped_result (w : Wrapped) (C : nat) (t0 : Time)
    (calls : list Call) (sched : list Event) (s : State)
    (Hrun : run sched (start w C t0 calls) = Some s)
    (i : nat) (c : Call) (r : Result)
    (Hcall : calls !! i = Some c)
    (Hret : returned s i r) :
  fits c r = true /\
  invocations (ops_of i (st_log s)) = [(w, c)] /\
  exists t1 t2,
    ops_of i (st_log s)
    = wait_ops c t1 t2 ++ [OpInvoke w c; OpReturn r; OpRecv].
Proof.
  destruct (reachable_inv _ _ _ _ _ _ Hrun) as [abs HI].
  destruct (inv_lookup_thread _ _ _ _ _ _ _ HI Hret)
    as (c' & ph & Hi & Hc & Hth & Hok & Hops).
  assert (c' = c) by congruence. subst c'.
  symmetry in Hth.
  destruct (thread_at_returned _ _ _ _ _ Hok Hth) as (t1 & t2 & ->).
  rewrite Hops. destruct Hok as [_ Hfit].
  split; [done |]. split; [done |]. by exists t1, t2.
Qed.

Lemma Milliseconds_Sub_bounds (t1 t2 : Time) :
  (- 2 ^ 53 < Milliseconds (Sub t2 t1) < 2 ^ 53)%Z.
Proof.
  unfold Milliseconds, Sub, minDuration, maxDuration.
  destruct (Z.ltb_spec (t2 - t1) (- 2 ^ 63)); [vm_compute; split; reflexivity |].
  destruct (Z.ltb_spec (2 ^ 63 - 1) (t2 - t1)); [vm_compute; split; reflexivity |].
  assert ((-2 ^ 63) ÷ 1000000 <= (t2 - t1) ÷ 1000000 <= (2 ^ 63 - 1) ÷ 1000000)%Z
    as Hq by (split; apply Z.quot_le_mono; lia).
  change ((-2 ^ 63) ÷ 1000000)%Z with (-9223372036854)%Z in Hq.
  change ((2 ^ 63 - 1) ÷ 1000000)%Z with 9223372036854%Z in Hq.
  change (2 ^ 53)%Z with 9007199254740992%Z. lia.
Qed.

(** [float64] of the milliseconds waited is exact. *)
Lemma Milliseconds_exact_float64 (t1 t2 : Time) :
  float64 (waited t1 t2) = Milliseconds (Sub t2 t1) /\
  (Z.abs (waited t1 t2) < 2 ^ 53)%Z.
Proof.
  split; [done |]. pose proof (Milliseconds_Sub_bounds t1 t2). unfold waited. lia.
Qed.

Lemma waited_nonneg (t1 t2 : Time) : (t1 <= t2)%Z -> (0 <= waited t1 t2)%Z.
Proof.
  intros H. unfold waited, Milliseconds, Sub, minDuration, maxDuration.
  destruct (Z.ltb_spec (t2 - t1) (- 2 ^ 63)); [lia |].
  destruct (Z.ltb_spec (2 ^ 63 - 1) (t2 - t1)); [done |].
  apply Z.quot_pos; lia.
Qed.

(** The milliseconds waited are the nanoseconds between the two readings
    divided by a million, rounded down; a difference that does not fit a
    duration counts as the largest duration. *)
Lemma waited_truncates (t1 t2 : Time) :
  (t1 <= t2)%Z ->
  (t2 - t1 < 2 ^ 63 ->
   1000000 * waited t1 t2 <= t2 - t1 < 1000000 * waited t1 t2 + 1000000)%Z /\
  (2 ^ 63 <= t2 - t1 -> waited t1 t2 = 9223372036854)%Z.
Proof.
  intros Hle. unfold waited, Sub, minDuration, maxDuration.
  destruct (Z.ltb_spec (t2 - t1) (- 2 ^ 63)); [lia |].
  destruct (Z.ltb_spec (2 ^ 63 - 1) (t2 - t1)).
  - split; [lia | intros _; reflexivity].
  - split; [intros _ | lia]. unfold Milliseconds.
    pose proof (Z.quot_rem' (t2 - t1) 1000000) as Hqr.
    pose proof (Z.rem_bound_pos (t2 - t1) 1000000 ltac:(lia) ltac:(lia)). lia.
Qed.

(** C8. The histogram has the bucket boundaries 1, 3, 5, 10, 25, 50, 100,
    1000, 5000 and the span attribute the key [time_waiting]. A call observes
    the histogram at most once, and only after its send on the limiter has
    completed; once it has gone through [waitForLimiter] (it has called the
    wrapped reader), it has made exactly one observation, on that histogram,
    and has set exactly one attribute, with that key and the same value, on
    the span of its own context. The value [v] is the wait in milliseconds:
    with [t1] and [t2] the clock readings the call took before and after its
    send, [t2 - t1] nanoseconds lie between [v] milliseconds inclusive and
    [v + 1] milliseconds exclusive (a difference that does not fit a duration
    gives the milliseconds of the largest duration); [v] is below 2^53, so
    that its conversion to float64 is exact. *)
Theorem wait_is_observed_once (w : Wrapped) (C : nat) (t0 : Time)
    (calls : list Call) (sched : list Event) (s : State)
    (Hrun : run sched (start w C t0 calls) = Some s)
    (i : nat) (c : Call)
    (Hcall : calls !! i = Some c) :
  let ops := ops_of i (st_log s) in
  Buckets boundedReadDelayMsHistogram = [1; 3; 5; 10; 25; 50; 100; 1000; 5000]%Z /\
  timeWaitingSpanAttribute = "time_waiting" /\
  length (attributes ops) <= length (observations ops) /\
  length (observations ops) <= sends ops /\
  sends ops <= 1 /\
  (invocations ops <> [] ->
   exists t1 t2 v rest,
     (t1 <= t2 <= st_clock s)%Z /\
     ops = [ OpNow t1; OpSend; OpNow t2;
             OpObserve boundedReadDelayMsHistogram v;
             OpSetAttributes (SpanFromContext (call_ctx c))
                             [Int64 "time_waiting" v] ]
           ++ rest /\
     observations ops = [(boundedReadDelayMsHistogram, v)] /\
     attributes ops
     = [(SpanFromContext (call_ctx c), [Int64 "time_waiting" v])] /\
     sends ops = 1 /\
     (0 <= v < 2 ^ 53)%Z /\
     (t2 - t1 < 2 ^ 63 -> 1000000 * v <= t2 - t1 < 1000000 * v + 1000000)%Z /\
     (2 ^ 63 <= t2 - t1 -> v = 9223372036854)%Z).
Proof.
  intros ops. subst ops.
  destruct (reachable_inv _ _ _ _ _ _ Hrun) as [abs HI].
  destruct (inv_lookup_call _ _ _ _ _ _ _ HI Hcall) as [ph Hi].
  rewrite (inv_ops _ _ _ _ _ HI _ _ _ Hi).
  pose proof (inv_ok _ _ _ _ _ HI _ _ _ Hi) as Hok.
  split; [reflexivity |]. split; [reflexivity |].
  unfold attributes, observations, sends, invocations.
  destruct ph; unfold wait_ops, timeWaitingSpanAttribute; simpl in *;
    (split; [lia |]); (split; [lia |]); (split; [lia |]);
    intros Hinv; try done;
    exists t1, t2, (waited t1 t2); eexists;
    (split; [lia |]); (split; [reflexivity |]);
    (split; [reflexivity |]); (split; [reflexivity |]); (split; [reflexivity |]);
    (split; [split; [apply waited_nonneg; lia | apply Milliseconds_Sub_bounds] |]);
    apply waited_truncates; lia.
Qed.

(** *** Moving a call forward *)

Lemma step_forward w cap calls s abs i c ph ph' :
  Inv w cap calls s abs ->
  abs !! i = Some (c, ph) ->
  next_phase (st_clock s) ph = Some ph' ->
  (holds ph = false -> holds ph' = true -> held s < cap) ->
  exists s', step (EvStep i) s = Some s' /\
             Inv w cap calls s' (<[i:=(c, ph')]> abs) /\
             st_clock s' = st_clock s.
Proof.
  intros HI Hi Hn Hroom.
  destruct s as [[w0 [cp ln]] clock done threads log].
  pose proof HI as [Hw Hcap Hcalls Hth Hops Hok Hheld Hbound].
  unfold held, capacity in *. simpl in *. subst w0 cp.
  destruct (next_phase_sound w c clock ph ph' (Hok _ _ _ Hi) Hn)
    as (op & Hl & Htr & Hok').
  rewrite Hth, (threads_of_lookup _ _ _ _ _ Hi). simpl.
  rewrite (perform_thread_at _ _ _ _ (Hok _ _ _ Hi)), Hn. simpl.
  rewrite Hl. simpl.
  pose proof (holders_lookup abs i c ph Hi) as Hone.
  assert (Hch : exists ln', limiter_after op (mkChan cap ln) = Some (mkChan cap ln') /\
                  ln' <= cap /\
                  ln' + (if holds ph then 1 else 0)
                  = ln + (if holds ph' then 1 else 0)).
  { destruct ph; simpl in Hn; inversion Hn; subst ph';
      unfold last_op in Hl; simpl in Hl; inversion Hl; subst op;
      simpl in *; unfold chan_send, chan_recv; simpl;
      try (exists ln; split; [reflexivity | lia]).
    - specialize (Hroom eq_refl eq_refl).
      destruct (Nat.ltb_spec ln cap); [| lia].
      exists (S ln). split; [reflexivity | lia].
    - specialize (Hone eq_refl). destruct ln as [|n]; [lia |].
      exists n. split; [reflexivity | lia]. }
  destruct Hch as (ln' & -> & Hle & Hlen). simpl.
  eexists. split; [reflexivity |]. split; [| reflexivity].
  rewrite <- Hth.
  by apply (inv_advance w cap calls _ abs i c ph ph' op ln' HI Hi).
Qed.

Lemma return_forward w cap calls s abs i c t1 t2 r :
  Inv w cap calls s abs ->
  abs !! i = Some (c, PhInner t1 t2) ->
  fits c r = true ->
  exists s', step (EvWrappedReturn i r) s = Some s' /\
             Inv w cap calls s' (<[i:=(c, PhRecv t1 t2 r)]> abs) /\
             st_clock s' = st_clock s.
Proof.
  intros HI Hi Hfit.
  destruct s as [[w0 [cp ln]] clock done threads log].
  pose proof HI as [Hw Hcap Hcalls Hth Hops Hok Hheld Hbound].
  unfold held, capacity in *. simpl in *. subst w0 cp.
  rewrite Hth, (threads_of_lookup _ _ _ _ _ Hi). simpl.
  rewrite (resume_thread_at _ _ _ _ _ (Hok _ _ _ Hi)), Hfit. simpl.
  eexists. split; [reflexivity |]. split; [| reflexivity].
  rewrite <- Hth.
  apply (inv_advance w cap calls _ abs i c (PhInner t1 t2) (PhRecv t1 t2 r)
           (OpReturn r) ln HI Hi); simpl; try done.
  split; [| done]. apply (Hok _ _ _ Hi).
Qed.

(** Operations a call still has to perform. *)
Definition remaining (ph : Phase) : nat :=
  match ph with
  | PhStart => 8
  | PhSend _ => 7
  | PhEnd _ => 6
  | PhObserve _ _ => 5
  | PhSetAttributes _ _ => 4
  | PhInvoke _ _ => 3
  | PhInner _ _ => 2
  | PhRecv _ _ _ => 1
  | PhDone _ _ _ => 0
  end.

Definition work (abs : list (Call * Phase)) : nat :=
  sum_list_with (fun x => remaining (snd x)) abs.

(** What a call returns when the wrapped reader answers a call [c] not yet
    answered with [reply c]. *)
Definition outcome (reply : Call -> Result) (c : Call) (ph : Phase) : Result :=
  match ph with
  | PhRecv _ _ r | PhDone _ _ r => r
  | _ => reply c
  end.

Lemma sum_list_with_insert {A} (f : A -> nat) (l : list A) : forall i x y,
  l !! i = Some x ->
  sum_list_with f (<[i:=y]> l) + f x = sum_list_with f l + f y.
Proof.
  induction l as [|a l IH]; intros [|i] x y Hi; simpl in *; try discriminate.
  - inversion Hi; subst. lia.
  - specialize (IH i x y Hi). lia.
Qed.

Lemma sum_list_with_lookup {A} (f : A -> nat) (l : list A) : forall i x,
  l !! i = Some x -> f x <= sum_list_with f l.
Proof.
  induction l as [|a l IH]; intros [|i] x Hi; simpl in *; try discriminate.
  - inversion Hi; subst. lia.
  - specialize (IH i x Hi). lia.
Qed.

Lemma count_if_Forall_not {A} (f : A -> bool) (l : list A) :
  Forall (fun x => f x <> true) l -> count_if f l = 0.
Proof.
  induction 1 as [|a l Ha _ IH]; simpl; [done |].
  destruct (f a); [done | by rewrite IH].
Qed.

Lemma advance_one reply w cap calls s abs i c ph :
  (forall i c, calls !! i = Some c -> fits c (reply c) = true) ->
  Inv w cap calls s abs ->
  abs !! i = Some (c, ph) ->
  remaining ph <> 0 ->
  holds ph = true \/ held s < cap ->
  exists e s' ph',
    step e s = Some s' /\
    Inv w cap calls s' (<[i:=(c, ph')]> abs) /\
    st_clock s' = st_clock s /\
    remaining ph' < remaining ph /\
    outcome reply c ph' = outcome reply c ph.
Proof.
  intros Hfit HI Hi Hrem Hroom.
  assert (Hc : calls !! i = Some c)
    by (by rewrite <- (inv_calls _ _ _ _ _ HI), list_lookup_fmap, Hi).
  destruct (decide (is_inner ph = true)) as [Hin | Hin].
  - destruct ph; try discriminate.
    destruct (return_forward _ _ _ _ _ _ _ _ _ (reply c) HI Hi (Hfit _ _ Hc))
      as (s' & Hs & HI' & Hclk).
    exists (EvWrappedReturn i (reply c)), s', (PhRecv t1 t2 (reply c)).
    split; [done | split; [done | split; [done | split; [simpl; lia | done]]]].
  - destruct (next_phase (st_clock s) ph) as [ph'|] eqn:Hn.
    + destruct (step_forward _ _ _ _ _ _ _ _ ph' HI Hi Hn) as (s' & Hs & HI' & Hclk).
      { intros Hh _. destruct Hroom; [congruence | done]. }
      exists (EvStep i), s', ph'.
      split; [done | split; [done | split; [done |]]].
      destruct ph; simpl in Hn; inversion Hn; subst; simpl;
        try (split; [lia | done]); done.
    + destruct ph; simpl in *; try discriminate; done.
Qed.

(** With room for at least one call, every call can be brought to return. *)
Lemma complete reply w cap calls :
  (forall i c, calls !! i = Some c -> fits c (reply c) = true) ->
  0 < cap ->
  forall n s abs,
    work abs <= n ->
    Inv w cap calls s abs ->
    exists sched s' abs',
      run sched s = Some s' /\
      Inv w cap calls s' abs' /\
      st_clock s' = st_clock s /\
      (forall i c ph, abs !! i = Some (c, ph) ->
                      exists t1 t2,
                        abs' !! i = Some (c, PhDone t1 t2 (outcome reply c ph))) /\
      holders abs' = 0.
Proof.
  intros Hfit Hcap.
  assert (Hstop : forall s abs,
             Inv w cap calls s abs ->
             Forall (fun x => holds (snd x) <> true) abs ->
             Forall (fun x => ~ remaining (snd x) <> 0) abs ->
             exists sched s' abs',
               run sched s = Some s' /\ Inv w cap calls s' abs' /\
               st_clock s' = st_clock s /\
               (forall i c ph, abs !! i = Some (c, ph) ->
                               exists t1 t2,
                                 abs' !! i = Some (c, PhDone t1 t2 (outcome reply c ph))) /\
               holders abs' = 0).
  { intros s abs HI Hnh Hdone. exists [], s, abs.
    split; [done | split; [done | split; [done | split]]].
    - intros i c ph Hi.
      rewrite Forall_lookup in Hdone. specialize (Hdone _ _ Hi). simpl in Hdone.
      destruct ph; simpl in Hdone; try (exfalso; apply Hdone; discriminate).
      simpl. eauto.
    - by apply count_if_Forall_not. }
  assert (Hgo : forall n,
             (forall s abs, work abs <= n -> Inv w cap calls s abs ->
                exists sched s' abs',
                  run sched s = Some s' /\ Inv w cap calls s' abs' /\
                  st_clock s' = st_clock s /\
                  (forall i c ph, abs !! i = Some (c, ph) ->
                     exists t1 t2,
                       abs' !! i = Some (c, PhDone t1 t2 (outcome reply c ph))) /\
                  holders abs' = 0) ->
             forall s abs i c ph,
               work abs <= S n -> Inv w cap calls s abs ->
               abs !! i = Some (c, ph) -> remaining ph <> 0 ->
               holds ph = true \/ held s < cap ->
               exists sched s' abs',
                 run sched s = Some s' /\ Inv w cap calls s' abs' /\
                 st_clock s' = st_clock s /\
                 (forall i c ph, abs !! i = Some (c, ph) ->
                    exists t1 t2,
                      abs' !! i = Some (c, PhDone t1 t2 (outcome reply c ph))) /\
                 holders abs' = 0).
  { intros n IH s abs i c ph Hw HI Hi Hrem Hroom.
    destruct (advance_one reply _ _ _ _ _ _ _ _ Hfit HI Hi Hrem Hroom)
      as (e & s1 & ph' & Hs & HI1 & Hclk & Hlt & Hout).
    pose proof (sum_list_with_insert (fun x => remaining (snd x)) abs i
                  (c, ph) (c, ph') Hi) as Hsum. simpl in Hsum.
    destruct (IH s1 (<[i:=(c, ph')]> abs)) as (sched & s' & abs' & Hr & HI' & Hc' & Hfin & Hz).
    { unfold work in *. lia. }
    { done. }
    exists (e :: sched), s', abs'. simpl. rewrite Hs. simpl.
    split; [done | split; [done | split; [congruence | split; [| done]]]].
    intros j cj phj Hj.
    destruct (decide (i = j)) as [-> | Hne].
    - assert (cj = c /\ phj = ph) as [-> ->] by (split; congruence).
      rewrite <- Hout. apply Hfin.
      apply list_lookup_insert_eq. by eapply lookup_lt_Some.
    - apply Hfin. by rewrite list_lookup_insert_ne. }
  induction n as [|n IH]; intros s abs Hw HI.
  - apply Hstop; [done | |].
    + apply Forall_lookup. intros i [c ph] Hi. simpl.
      pose proof (sum_list_with_lookup (fun x => remaining (snd x)) abs i _ Hi).
      unfold work in Hw. simpl in *. destruct ph; simpl in *; try lia; done.
    + apply Forall_lookup. intros i [c ph] Hi. simpl.
      pose proof (sum_list_with_lookup (fun x => remaining (snd x)) abs i _ Hi).
      unfold work in Hw. simpl in *. lia.
  - destruct (list_find (fun x => holds (snd x) = true) abs) as [[i [c ph]]|] eqn:Hf.
    + apply list_find_Some in Hf as (Hi & Hh & _). simpl in Hh.
      apply (Hgo n IH s abs i c ph); try done; [| by left].
      destruct ph; simpl in *; try discriminate; lia.
    + apply list_find_None in Hf.
      destruct (list_find (fun x => remaining (snd x) <> 0) abs)
        as [[i [c ph]]|] eqn:Hg.
      * apply list_find_Some in Hg as (Hi & Hrem & _). simpl in Hrem.
        apply (Hgo n IH s abs i c ph); try done. right.
        rewrite (inv_held _ _ _ _ _ HI). unfold holders.
        rewrite count_if_Forall_not; [done | done].
      * apply list_find_None in Hg. by apply Hstop.
Qed.

(** *** Waiting on the limiter *)

(** A call at the send stays there whatever happens, unless it is the one to
    move and the limiter has room. *)
Lemma waits_until_room w cap calls s abs i e s' :
  Inv w cap calls s abs ->
  at_send s i ->
  step e s = Some s' ->
  at_send s' i \/
  (e = EvStep i /\ held s < cap /\ held s' = S (held s)).
Proof.
  intros HI [k Hk] Hstep.
  destruct e as [j | j r | j j' | d | key cause].
  - destruct (decide (j = i)) as [-> | Hne].
    + right. split; [done |].
      pose proof (inv_cap _ _ _ _ _ HI) as Hcap. unfold capacity in Hcap.
      unfold step in Hstep. rewrite Hk in Hstep. simpl in Hstep.
      unfold chan_send in Hstep. unfold held.
      destruct (Nat.ltb_spec (chan_len (limiter (st_reader s)))
                             (chan_cap (limiter (st_reader s))));
        simpl in Hstep; [| discriminate].
      inversion Hstep; subst s'. simpl. split; [lia | done].
    + left. exists k. unfold step in Hstep.
      destruct (st_threads s !! j) as [th|]; simpl in Hstep; [| discriminate].
      destruct (perform _ _ th) as [[op th']|]; simpl in Hstep; [| discriminate].
      destruct (limiter_after op _); simpl in Hstep; [| discriminate].
      inversion Hstep; subst s'. simpl. by rewrite list_lookup_insert_ne.
  - left. exists k. unfold step in Hstep.
    destruct (st_threads s !! j) as [th|] eqn:Hj; simpl in Hstep; [| discriminate].
    destruct (resume r th) as [[op th']|] eqn:Hr; simpl in Hstep; [| discriminate].
    inversion Hstep; subst s'. simpl.
    destruct (decide (j = i)) as [-> | Hne]; [| by rewrite list_lookup_insert_ne].
    rewrite Hk in Hj. inversion Hj; subst th. discriminate Hr.
  - by rewrite (no_handoff _ _ _ _ _ _ _ HI) in Hstep.
  - left. exists k. simpl in Hstep.
    destruct (0 <=? d)%Z; inversion Hstep; subst s'. done.
  - left. exists k. simpl in Hstep.
    destruct (ctx_err (st_done s) key); inversion Hstep; subst s'; done.
Qed.

Lemma has_returned_thread_at w c clock ph :
  phase_ok c clock ph ->
  has_returned (thread_at w c ph) = match ph with PhDone _ _ _ => true | _ => false end.
Proof.
  destruct ph as [| | | | | | | ? ? r | ? ? r]; simpl; intros Hok;
    try (destruct c; reflexivity);
    destruct Hok as [_ Hfit]; destruct c, r; try discriminate; reflexivity.
Qed.

Lemma count_if_disjoint {A} (f g : A -> bool) (l : list A) :
  (forall x, f x = true -> g x = false) ->
  count_if f l + count_if g l <= length l.
Proof.
  intros H. induction l as [|a l IH]; simpl; [lia |].
  destruct (f a) eqn:Hf; [rewrite (H _ Hf) |]; destruct (g a); lia.
Qed.

Lemma count_if_all {A} (f : A -> bool) (l : list A) :
  (forall i x, l !! i = Some x -> f x = true) -> count_if f l = length l.
Proof.
  induction l as [|a l IH]; intros H; simpl; [done |].
  rewrite (H 0 a eq_refl). rewrite IH; [done |].
  intros i x Hi. apply (H (S i) x Hi).
Qed.

Lemma inv_length w cap calls s abs :
  Inv w cap calls s abs -> length abs = length calls.
Proof. intros HI. rewrite <- (inv_calls _ _ _ _ _ HI). by rewrite length_fmap. Qed.

Lemma inv_returned_calls w cap calls s abs :
  Inv w cap calls s abs -> held s + returned_calls s <= length calls.
Proof.
  intros HI. rewrite <- (inv_length _ _ _ _ _ HI).
  unfold returned_calls. rewrite (inv_threads _ _ _ _ _ HI), (inv_held _ _ _ _ _ HI).
  unfold threads_of, holders. rewrite count_if_fmap.
  rewrite (count_if_ext_in (fun x => has_returned (thread_at w (fst x) (snd x)))
             (fun x => match snd x with PhDone _ _ _ => true | _ => false end)).
  - apply count_if_disjoint. intros [c []]; simpl; done.
  - intros i [c ph] Hi. simpl. eapply has_returned_thread_at. by eapply inv_ok.
Qed.

(** From the start, with room for one call and a wrapped reader that answers
    [reply c] to a call [c], all calls can be brought to return what the
    wrapped reader answered, leaving the limiter empty. *)
Lemma all_can_return reply w cap t0 calls sched s :
  (forall i c, calls !! i = Some c -> fits c (reply c) = true) ->
  0 < cap ->
  run sched (start w cap t0 calls) = Some s ->
  exists sched' s',
    run sched' s = Some s' /\
    held s' = 0 /\
    (forall j c, calls !! j = Some c -> exists r, returned s' j r) /\
    (sched = [] -> forall j c, calls !! j = Some c -> returned s' j (reply c)).
Proof.
  intros Hfit Hcap Hrun.
  assert (Hgen : forall s abs, Inv w cap calls s abs ->
            exists sched' s',
              run sched' s = Some s' /\ held s' = 0 /\
              (forall j c ph, abs !! j = Some (c, ph) ->
                              returned s' j (outcome reply c ph))).
  { intros s1 abs HI.
    destruct (complete reply w cap calls Hfit Hcap (work abs) s1 abs (le_n _) HI)
      as (sched' & s' & abs' & Hr & HI' & _ & Hfin & Hz).
    exists sched', s'. split; [done |].
    split; [by rewrite (inv_held _ _ _ _ _ HI') |].
    intros j c ph Hj. destruct (Hfin _ _ _ Hj) as (t1 & t2 & Hj').
    unfold returned. rewrite (inv_threads _ _ _ _ _ HI').
    rewrite (threads_of_lookup _ _ _ _ _ Hj'). f_equal.
    apply thread_at_done. by destruct (inv_ok _ _ _ _ _ HI' _ _ _ Hj'). }
  destruct (reachable_inv _ _ _ _ _ _ Hrun) as [abs HI].
  destruct (Hgen s abs HI) as (sched' & s' & Hr & Hz & Hret).
  exists sched', s'. split; [done |]. split; [done |]. split.
  - intros j c Hc. destruct (inv_lookup_call _ _ _ _ _ _ _ HI Hc) as [ph Hj]. eauto.
  - intros -> j c Hc. simpl in Hrun. inversion Hrun; subst s.
    destruct (inv_lookup_call _ _ _ _ _ _ _ HI Hc) as [ph Hj].
    pose proof (inv_ops _ _ _ _ _ HI _ _ _ Hj) as Hops. simpl in Hops.
    specialize (Hret _ _ _ Hj).
    destruct ph; simpl in Hops; try discriminate. exact Hret.
Qed.

(** C2, as the design document has it (refuted below): a call that is at the
    send on a full limiter when its context has fired returns at the next
    step. *)
Definition cancel_aborts_wait (s : State) (i : nat) (c : Call) : Prop :=
  at_send s i ->
  held s = capacity s ->
  ctx_err (st_done s) (ctx_key (call_ctx c)) <> None ->
  exists e s' r, step e s = Some s' /\ returned s' i r.

(** C2 (amended). A call blocked at the send of [waitForLimiter] does not
    return when the cancellation or deadline signal of its context fires: the
    signal changes neither the goroutines nor the limiter, and whatever
    happens the call stays at the send until the limiter has room and it
    completes the send itself. While it waits it has sent nothing, so it holds
    no unit; and no unit is leaked: when the capacity is at least one and the
    wrapped reader answers, all the calls, this one and the other waiters,
    can still acquire a unit and return, leaving the limiter empty. *)
Theorem blocked_call_waits_through_cancellation (w : Wrapped) (C : nat)
    (t0 : Time) (calls : list Call) (sched : list Event) (s : State)
    (Hrun : run sched (start w C t0 calls) = Some s)
    (i : nat) (c : Call)
    (Hcall : calls !! i = Some c)
    (Hwait : at_send s i) :
  (forall cause,
      exists s', step (EvCancel (ctx_key (call_ctx c)) cause) s = Some s' /\
                 at_send s' i /\
                 st_threads s' = st_threads s /\
                 st_reader s' = st_reader s /\
                 st_log s' = st_log s) /\
  (forall e s', step e s = Some s' ->
                at_send s' i \/
                (e = EvStep i /\ held s < C /\ held s' = S (held s))) /\
  sends (ops_of i (st_log s)) = 0 /\
  (0 < C ->
   forall reply,
     (forall j cj, calls !! j = Some cj -> fits cj (reply cj) = true) ->
     exists sched' s',
       run sched' s = Some s' /\
       held s' = 0 /\
       forall j cj, calls !! j = Some cj -> exists r, returned s' j r).
Proof.
  destruct (reachable_inv _ _ _ _ _ _ Hrun) as [abs HI].
  split; [| split; [| split]].
  - intros cause. simpl.
    destruct (ctx_err (st_done s) (ctx_key (call_ctx c)));
      eexists; (split; [reflexivity |]); by repeat split.
  - intros e s' Hstep. by eapply waits_until_room.
  - destruct Hwait as [k Hk].
    destruct (inv_lookup_thread _ _ _ _ _ _ _ HI Hk)
      as (c' & ph & Hi & Hc & Hth & Hok & Hops).
    symmetry in Hth.
    destruct (thread_at_at_send _ _ _ _ _ Hok Hth) as [t1 ->].
    by rewrite Hops.
  - intros HC reply Hfit.
    destruct (all_can_return reply _ _ _ _ _ _ Hfit HC Hrun)
      as (sched' & s' & Hr & Hz & Hret & _).
    by exists sched', s'.
Qed.

(** Calls of the two methods that return an iterator. *)
Definition returns_iterator (c : Call) : bool :=
  match c with
  | CallRead _ _ _ | CallReadUsersetTuples _ _ _ => true
  | CallReadUserTuple _ _ _ => false
  end.

(** C10. A call that has returned has received from the limiter, as the last
    thing it did: its unit is released by the time the caller has the
    iterator, so the units held and the calls returned never add up to more
    than the calls issued. The bound therefore limits the calls that are
    producing an iterator, not the iterators handed out: with a capacity of
    at least one, any number of [Read] and [ReadUsersetTuples] calls, more
    than [C] if one likes, can all have returned their iterator, none of them
    touched by the reader, while the limiter is empty. *)
Theorem unit_is_released_with_the_iterator (w : Wrapped) (C : nat) (t0 : Time)
    (calls : list Call) :
  (forall sched s,
      run sched (start w C t0 calls) = Some s ->
      held s + returned_calls s <= length calls /\
      forall i c r,
        calls !! i = Some c -> returned s i r ->
        receives (ops_of i (st_log s)) = 1 /\
        last (ops_of i (st_log s)) = Some OpRecv) /\
  (0 < C ->
   Forall (fun c => returns_iterator c = true) calls ->
   forall it : TupleIterator,
   exists sched s,
     run sched (start w C t0 calls) = Some s /\
     iterators_handed_out s = length calls /\
     (forall i c, calls !! i = Some c -> returned s i (ResIter (it, None))) /\
     held s = 0 /\
     executing s = 0).
Proof.
  split.
  - intros sched s Hrun.
    destruct (reachable_inv _ _ _ _ _ _ Hrun) as [abs HI].
    split; [by eapply inv_returned_calls |].
    intros i c r Hc Hret.
    destruct (inv_lookup_thread _ _ _ _ _ _ _ HI Hret)
      as (c' & ph & Hi & Hc' & Hth & Hok & Hops).
    symmetry in Hth.
    destruct (thread_at_returned _ _ _ _ _ Hok Hth) as (t1 & t2 & ->).
    rewrite Hops. by split.
  - intros HC Hiter it.
    set (reply := fun _ : Call => ResIter (it, @None Err)).
    assert (Hfit : forall j cj, calls !! j = Some cj -> fits cj (reply cj) = true).
    { intros j cj Hj. rewrite Forall_lookup in Hiter. specialize (Hiter _ _ Hj).
      by destruct cj. }
    destruct (all_can_return reply w C t0 calls [] _ Hfit HC eq_refl)
      as (sched & s & Hr & Hz & _ & Hret).
    specialize (Hret eq_refl).
    exists sched, s. split; [done |].
    assert (Hlen : length (st_threads s) = length calls).
    { destruct (reachable_inv _ _ _ _ _ _ Hr) as [abs HI].
      rewrite (inv_threads _ _ _ _ _ HI). unfold threads_of.
      by rewrite length_fmap, (inv_length _ _ _ _ _ HI). }
    assert (Hall : forall j th, st_threads s !! j = Some th ->
                                th = running (Ret (ResIter (it, None)))).
    { intros j th Hj.
      destruct (calls !! j) as [cj|] eqn:Hcj.
      - specialize (Hret _ _ Hcj). unfold returned, reply in Hret. congruence.
      - apply lookup_ge_None in Hcj. apply lookup_lt_Some in Hj. lia. }
    split; [| split; [done | split; [done |]]].
    + unfold iterators_handed_out. rewrite <- Hlen. apply count_if_all.
      intros j th Hj. by rewrite (Hall _ _ Hj).
    + destruct (reachable_inv _ _ _ _ _ _ Hr) as [abs HI].
      pose proof (inv_executing _ _ _ _ _ HI). lia.
Qed.

(** *** Further properties of the bounded reader *)

(** All the operations of a state, oldest first, whoever performed them. *)
Definition all_ops (s : State) : list Op := snd <$> st_log s.

Lemma count_if_app {A} (f : A -> bool) (l1 l2 : list A) :
  count_if f (l1 ++ l2) = count_if f l1 + count_if f l2.
Proof. induction l1 as [|a l1 IH]; simpl; [done | rewrite IH; lia]. Qed.

Lemma all_ops_snoc (s : State) b clock done threads i op :
  all_ops (mkState b clock done threads (st_log s ++ [(i, op)]))
  = all_ops s ++ [op].
Proof. unfold all_ops. simpl. by rewrite fmap_app. Qed.

(** A call holds a unit when it has completed more sends than receives. *)
Definition holding (ops : list Op) : bool := Nat.ltb (receives ops) (sends ops).

(** The calls that hold a unit. *)
Definition holding_calls (s : State) : nat :=
  count_if (fun i => holding (ops_of i (st_log s)))
           (seq 0 (length (st_threads s))).

Lemma count_if_seq {A} (f : nat -> bool) (g : A -> bool) (l : list A) :
  forall n,
    (forall i x, l !! i = Some x -> f (n + i) = g x) ->
    count_if f (seq n (length l)) = count_if g l.
Proof.
  induction l as [|a l IH]; intros n H; simpl; [done |].
  rewrite <- (H 0 a eq_refl), Nat.add_0_r. f_equal.
  apply IH. intros i x Hi. rewrite <- (H (S i) x Hi). f_equal. lia.
Qed.

Lemma holding_trace_of w c ph : holding (trace_of w c ph) = holds ph.
Proof. by destruct ph. Qed.

(** X8. Every unit in the limiter belongs to one call: in every state
    reached, the number of units held is the number of calls that have
    completed their send and not yet their deferred receive. A call sends at
    most once, never receives before it has sent, and a call that holds a
    unit has not returned: no unit is left behind by a call that is over, and
    none is taken twice. *)
Theorem every_unit_belongs_to_a_call (w : Wrapped) (C : nat) (t0 : Time)
    (calls : list Call) (sched : list Event) (s : State)
    (Hrun : run sched (start w C t0 calls) = Some s) :
  held s = holding_calls s /\
  forall i c,
    calls !! i = Some c ->
    sends (ops_of i (st_log s)) <= 1 /\
    receives (ops_of i (st_log s)) <= sends (ops_of i (st_log s)) /\
    (holding (ops_of i (st_log s)) = true -> forall r, ~ returned s i r).
Proof.
  destruct (reachable_inv _ _ _ _ _ _ Hrun) as [abs HI].
  split.
  - rewrite (inv_held _ _ _ _ _ HI). unfold holding_calls, holders.
    rewrite (inv_threads _ _ _ _ _ HI). unfold threads_of. rewrite length_fmap.
    symmetry. apply count_if_seq. intros i [c ph] Hi. simpl.
    by rewrite (inv_ops _ _ _ _ _ HI _ _ _ Hi), holding_trace_of.
  - intros i c Hc. destruct (inv_lookup_call _ _ _ _ _ _ _ HI Hc) as [ph Hi].
    rewrite (inv_ops _ _ _ _ _ HI _ _ _ Hi).
    pose proof (inv_ok _ _ _ _ _ HI _ _ _ Hi) as Hok.
    split; [| split].
    + destruct ph; unfold sends, wait_ops; simpl; lia.
    + destruct ph; unfold sends, receives, wait_ops; simpl; lia.
    + rewrite holding_trace_of. intros Hh r Hret.
      unfold returned in Hret.
      rewrite (inv_threads _ _ _ _ _ HI), (threads_of_lookup _ _ _ _ _ Hi) in Hret.
      inversion Hret as [Hth].
      destruct (thread_at_returned _ _ _ _ _ Hok Hth) as (t1 & t2 & ->).
      discriminate Hh.
Qed.

(** The program at the head of a goroutine tells the phase of its call. *)
Lemma thread_at_head w c clock ph :
  phase_ok c clock ph ->
  match ph with
  | PhSend _ => exists k, thread_at w c ph = running (LimiterSend k)
  | PhInner _ _ => th_inner (thread_at w c ph) = true
  | PhDone _ _ r => thread_at w c ph = running (Ret r)
  | _ => True
  end.
Proof.
  destruct ph as [| | | | | | | ? ? r | ? ? r]; simpl; intros Hok; try done.
  - destruct c; eexists; reflexivity.
  - by destruct c.
  - destruct Hok as [_ Hfit]. by apply thread_at_done.
Qed.

(** X9. The send on the limiter is the only operation of a call that can be
    refused: in every state reached, a goroutine that has not returned, is not
    inside the wrapped reader and is not at the send can perform its next
    operation. In particular the deferred receive never blocks. *)
Theorem only_the_send_blocks (w : Wrapped) (C : nat) (t0 : Time)
    (calls : list Call) (sched : list Event) (s : State)
    (Hrun : run sched (start w C t0 calls) = Some s)
    (i : nat) (p : Prog Result)
    (Hthread : st_threads s !! i = Some (running p))
    (Hnot_returned : forall r, p <> Ret r)
    (Hnot_send : forall k, p <> LimiterSend k) :
  exists s', step (EvStep i) s = Some s'.
Proof.
  destruct (reachable_inv _ _ _ _ _ _ Hrun) as [abs HI].
  destruct (inv_lookup_thread _ _ _ _ _ _ _ HI Hthread)
    as (c & ph & Hi & Hc & Hth & Hok & Hops).
  pose proof (thread_at_head w c _ ph Hok) as Hhead.
  destruct (next_phase (st_clock s) ph) as [ph'|] eqn:Hn.
  - destruct (step_forward _ _ _ _ _ _ _ _ ph' HI Hi Hn) as (s' & Hs & _); [| eauto].
    intros Hh Hh'. exfalso.
    destruct ph; simpl in Hn; inversion Hn; subst ph'; simpl in *; try discriminate.
    destruct Hhead as [k Hk]. rewrite Hk in Hth. inversion Hth.
    by eapply Hnot_send.
  - exfalso. destruct ph; simpl in Hn; try discriminate.
    + rewrite <- Hth in Hhead. discriminate.
    + rewrite Hhead in Hth. inversion Hth. by eapply Hnot_returned.
Qed.

Lemma sends_ops_of_le i (log : list (nat * Op)) :
  sends (ops_of i log) <= sends (snd <$> log).
Proof.
  induction log as [|[j op] log IH]; [done |].
  change (snd <$> (j, op) :: log) with (op :: (snd <$> log)).
  change (ops_of i ((j, op) :: log))
    with (match (if decide (j = i) then Some op else None) with
          | Some y => y :: ops_of i log
          | None => ops_of i log
          end).
  unfold sends in *.
  destruct (decide (j = i)); simpl; destruct op; lia.
Qed.

(** With no capacity, a step completes no send. *)
Lemma zero_capacity_step w calls s abs e s' :
  Inv w 0 calls s abs ->
  step e s = Some s' ->
  sends (all_ops s') = sends (all_ops s).
Proof.
  intros HI Hstep.
  pose proof (inv_cap _ _ _ _ _ HI) as Hcap. unfold capacity in Hcap.
  destruct e as [i | i r | i j | d | key cause].
  - simpl in Hstep.
    destruct (st_threads s !! i) as [th|]; simpl in Hstep; [| discriminate].
    destruct (perform _ _ th) as [[op th']|]; simpl in Hstep; [| discriminate].
    destruct (limiter_after op _) as [ch|] eqn:Hch; simpl in Hstep; [| discriminate].
    inversion Hstep; subst s'. clear Hstep.
    rewrite all_ops_snoc. unfold sends. rewrite count_if_app. simpl.
    destruct op; simpl; try lia.
    simpl in Hch. unfold chan_send in Hch. rewrite Hcap in Hch.
    destruct (Nat.ltb_spec (chan_len (limiter (st_reader s))) 0);
      [lia | discriminate].
  - simpl in Hstep.
    destruct (st_threads s !! i) as [th|]; simpl in Hstep; [| discriminate].
    destruct (resume r th) as [[op th']|] eqn:Hr; simpl in Hstep; [| discriminate].
    inversion Hstep; subst s'. clear Hstep.
    rewrite all_ops_snoc. unfold sends. rewrite count_if_app. simpl.
    unfold resume in Hr. destruct (th_inner th); [| discriminate].
    destruct (th_prog th), r; inversion Hr; subst; simpl; lia.
  - by rewrite (no_handoff _ _ _ _ _ _ _ HI) in Hstep.
  - simpl in Hstep. destruct (0 <=? d)%Z; inversion Hstep; subst s'. done.
  - simpl in Hstep.
    destruct (ctx_err (st_done s) key); inversion Hstep; subst s'; done.
Qed.

Lemma zero_capacity_run w calls sched : forall s abs s',
  Inv w 0 calls s abs ->
  run sched s = Some s' ->
  sends (all_ops s') = sends (all_ops s).
Proof.
  induction sched as [|e sched IH]; intros s abs s' HI Hrun; simpl in Hrun.
  - by inversion Hrun; subst.
  - destruct (step e s) as [s1|] eqn:Hs; simpl in Hrun; [| discriminate].
    destruct (step_inv _ _ _ _ _ _ _ HI Hs) as [abs1 HI1].
    rewrite (IH _ _ _ HI1 Hrun). by eapply zero_capacity_step.
Qed.

(** X10. A reader built with a concurrency of zero serves nothing: whatever
    the calls and the schedule, no call ever completes its send on the
    limiter, so none reaches the wrapped reader and none returns. *)
Theorem zero_concurrency_blocks_every_call (w : Wrapped) (t0 : Time)
    (calls : list Call) (sched : list Event) (s : State)
    (Hrun : run sched (start w 0 t0 calls) = Some s) :
  sends (all_ops s) = 0 /\
  (forall i c, calls !! i = Some c ->
               sends (ops_of i (st_log s)) = 0 /\
               invocations (ops_of i (st_log s)) = []) /\
  (forall i r, ~ returned s i r) /\
  executing s = 0 /\
  held s = 0.
Proof.
  destruct (reachable_inv _ _ _ _ _ _ Hrun) as [abs HI].
  pose proof (zero_capacity_run _ _ _ _ _ _ (inv_start w 0 t0 calls) Hrun) as Hs.
  change (sends (all_ops (start w 0 t0 calls))) with 0 in Hs.
  assert (Hph : forall i c ph, abs !! i = Some (c, ph) ->
                               ph = PhStart \/ exists t1, ph = PhSend t1).
  { intros i c ph Hi.
    pose proof (sends_ops_of_le i (st_log s)) as Hle.
    rewrite (inv_ops _ _ _ _ _ HI _ _ _ Hi) in Hle.
    unfold all_ops in Hs. rewrite Hs in Hle.
    destruct ph; unfold sends, wait_ops in Hle; simpl in Hle; try lia; eauto. }
  pose proof (inv_bound _ _ _ _ _ HI) as Hb.
  pose proof (inv_executing _ _ _ _ _ HI) as He.
  split; [done |]. split; [| split; [| lia]].
  - intros i c Hc. destruct (inv_lookup_call _ _ _ _ _ _ _ HI Hc) as [ph Hi].
    rewrite (inv_ops _ _ _ _ _ HI _ _ _ Hi).
    destruct (Hph _ _ _ Hi) as [-> | [t1 ->]]; split; reflexivity.
  - intros i r Hret.
    destruct (inv_lookup_thread _ _ _ _ _ _ _ HI Hret)
      as (c & ph & Hi & Hc & Hth & Hok & Hops).
    destruct (Hph _ _ _ Hi) as [-> | [t1 ->]]; destruct c; discriminate.
Qed.

Lemma quot_million (d : Z) :
  (0 <= d -> 1000000 * (d ÷ 1000000) <= d < 1000000 * (d ÷ 1000000) + 1000000)%Z.
Proof.
  intros Hd.
  pose proof (Z.quot_rem' d 1000000) as Hqr.
  pose proof (Z.rem_bound_pos d 1000000 Hd ltac:(lia)). lia.
Qed.

(** X12. The wait is observed in whole milliseconds, rounded down: every
    observation a call has made is on [boundedReadDelayMsHistogram], and its
    value [v] is such that the nanoseconds between the clock readings taken
    before and after the send lie in [v] ms inclusive to [v + 1] ms exclusive;
    a wait shorter than a millisecond is observed as [0]. A difference beyond
    the range of a duration is observed as the largest duration. *)
Theorem observation_is_truncated (w : Wrapped) (C : nat) (t0 : Time)
    (calls : list Call) (sched : list Event) (s : State)
    (Hrun : run sched (start w C t0 calls) = Some s)
    (i : nat) (c : Call) (h : HistogramOpts) (v : Z)
    (Hcall : calls !! i = Some c)
    (Hobs : In (h, v) (observations (ops_of i (st_log s)))) :
  h = boundedReadDelayMsHistogram /\
  exists t1 t2 rest,
    ops_of i (st_log s) = OpNow t1 :: OpSend :: OpNow t2 :: rest /\
    (t1 <= t2 <= st_clock s)%Z /\
    (t2 - t1 <= maxDuration ->
     1000000 * v <= t2 - t1 < 1000000 * v + 1000000)%Z /\
    (t2 - t1 < 1000000 -> v = 0)%Z /\
    (maxDuration < t2 - t1 -> v = Milliseconds maxDuration)%Z.
Proof.
  destruct (reachable_inv _ _ _ _ _ _ Hrun) as [abs HI].
  destruct (inv_lookup_call _ _ _ _ _ _ _ HI Hcall) as [ph Hi].
  pose proof (inv_ok _ _ _ _ _ HI _ _ _ Hi) as Hok.
  rewrite (inv_ops _ _ _ _ _ HI _ _ _ Hi) in *.
  assert (Hv : forall t1 t2, (t1 <= t2)%Z ->
             (t2 - t1 <= maxDuration ->
              1000000 * waited t1 t2 <= t2 - t1 < 1000000 * waited t1 t2 + 1000000)%Z /\
             (t2 - t1 < 1000000 -> waited t1 t2 = 0)%Z /\
             (maxDuration < t2 - t1 -> waited t1 t2 = Milliseconds maxDuration)%Z).
  { intros t1 t2 Hle. unfold waited, Sub, minDuration, maxDuration.
    destruct (Z.ltb_spec (t2 - t1) (- 2 ^ 63)); [lia |].
    destruct (Z.ltb_spec (2 ^ 63 - 1) (t2 - t1)).
    - split; [lia | split; [lia | done]].
    - unfold Milliseconds.
      pose proof (quot_million (t2 - t1) ltac:(lia)) as Hq.
      split; [intros _; exact Hq | split; [| lia]].
      intros Hsmall.
      assert (0 <= (t2 - t1) ÷ 1000000)%Z by (apply Z.quot_pos; lia). lia. }
  unfold observations in Hobs.
  destruct ph; unfold wait_ops in *; simpl in Hobs, Hok |- *;
    try contradiction;
    destruct Hobs as [Hobs | []]; inversion Hobs; subst h v;
    (split; [reflexivity |]); exists t1, t2; eexists;
    (split; [reflexivity |]); (split; [lia |]); apply Hv; lia.
Qed.

Lemma inv_executing_eq w cap calls s abs :
  Inv w cap calls s abs ->
  executing s = count_if (fun x => is_inner (snd x)) abs.
Proof.
  intros HI. unfold executing.
  rewrite (inv_threads _ _ _ _ _ HI). unfold threads_of. rewrite count_if_fmap.
  apply count_if_ext_in.
  intros i [c ph] Hi. simpl. eapply th_inner_thread_at. by eapply inv_ok.
Qed.

Lemma run_cons e rest s s1 :
  step e s = Some s1 -> run (e :: rest) s = run rest s1.
Proof.
  intros H. change (run (e :: rest) s) with (step e s ≫= run rest).
  by rewrite H.
Qed.

(** A call that has not started goes all the way into the wrapped reader
    when the limiter has room. *)
Lemma enter_wrapped w cap calls s abs i c :
  Inv w cap calls s abs ->
  abs !! i = Some (c, PhStart) ->
  held s < cap ->
  exists sched s',
    run sched s = Some s' /\
    Inv w cap calls s' (<[i:=(c, PhInner (st_clock s) (st_clock s))]> abs) /\
    st_clock s' = st_clock s /\
    held s' = S (held s) /\
    executing s' = S (executing s).
Proof.
  intros HI Hi Hroom.
  assert (Hlt : i < length abs) by (by eapply lookup_lt_Some).
  set (t := st_clock s).
  destruct (step_forward _ _ _ _ _ _ _ _ (PhSend t) HI Hi eq_refl)
    as (s1 & Hs1 & HI1 & Hc1); [discriminate |].
  assert (Hh1 : held s1 = held s).
  { rewrite (inv_held _ _ _ _ _ HI1), (inv_held _ _ _ _ _ HI). unfold holders.
    pose proof (count_if_insert (fun x => holds (snd x)) abs i _ (c, PhSend t) Hi).
    simpl in *. lia. }
  destruct (step_forward _ _ _ _ _ _ _ _ (PhEnd t) HI1
              (list_lookup_insert_eq _ _ _ Hlt) eq_refl)
    as (s2 & Hs2 & HI2 & Hc2); [intros; lia |].
  rewrite list_insert_insert_eq in HI2.
  assert (Hl2 : i < length (<[i:=(c, PhEnd t)]> abs)) by (by rewrite length_insert).
  destruct (step_forward _ _ _ _ _ _ _ _ (PhObserve t t) HI2
              (list_lookup_insert_eq _ _ _ Hlt))
    as (s3 & Hs3 & HI3 & Hc3);
    [simpl; rewrite Hc2, Hc1; reflexivity | discriminate |].
  rewrite list_insert_insert_eq in HI3.
  destruct (step_forward _ _ _ _ _ _ _ _ (PhSetAttributes t t) HI3
              (list_lookup_insert_eq _ _ _ Hlt) eq_refl)
    as (s4 & Hs4 & HI4 & Hc4); [discriminate |].
  rewrite list_insert_insert_eq in HI4.
  destruct (step_forward _ _ _ _ _ _ _ _ (PhInvoke t t) HI4
              (list_lookup_insert_eq _ _ _ Hlt) eq_refl)
    as (s5 & Hs5 & HI5 & Hc5); [discriminate |].
  rewrite list_insert_insert_eq in HI5.
  destruct (step_forward _ _ _ _ _ _ _ _ (PhInner t t) HI5
              (list_lookup_insert_eq _ _ _ Hlt) eq_refl)
    as (s6 & Hs6 & HI6 & Hc6); [discriminate |].
  rewrite list_insert_insert_eq in HI6.
  exists [EvStep i; EvStep i; EvStep i; EvStep i; EvStep i; EvStep i], s6.
  split.
  { rewrite (run_cons _ _ _ _ Hs1), (run_cons _ _ _ _ Hs2), (run_cons _ _ _ _ Hs3),
      (run_cons _ _ _ _ Hs4), (run_cons _ _ _ _ Hs5), (run_cons _ _ _ _ Hs6).
    reflexivity. }
  split; [exact HI6 |]. split; [unfold t in *; congruence |]. split.
  - rewrite (inv_held _ _ _ _ _ HI6), (inv_held _ _ _ _ _ HI). unfold holders.
    pose proof (count_if_insert (fun x => holds (snd x)) abs i _ (c, PhInner t t) Hi).
    simpl in *. lia.
  - rewrite (inv_executing_eq _ _ _ _ _ HI6), (inv_executing_eq _ _ _ _ _ HI).
    pose proof (count_if_insert (fun x => is_inner (snd x)) abs i _ (c, PhInner t t) Hi).
    simpl in *. lia.
Qed.

Lemma run_app sched1 : forall sched2 s s1,
  run sched1 s = Some s1 -> run (sched1 ++ sched2) s = run sched2 s1.
Proof.
  induction sched1 as [|e sched1 IH]; intros sched2 s s1 Hrun; simpl in *.
  - by inversion Hrun.
  - destruct (step e s) as [s'|]; simpl in *; [| discriminate]. by apply IH.
Qed.

(** The first [k] calls inside the wrapped reader since [t], the others not
    started. *)
Definition first_inside (k : nat) (t : Time) (calls : list Call)
  : list (Call * Phase) :=
  imap (fun j c => (c, if Nat.ltb j k then PhInner t t else PhStart)) calls.

(** X13. The bound is tight: with at least [C] calls issued, there is a
    schedule after which exactly [C] of them are executing against the
    wrapped reader at the same time, the limiter being full. The reader
    throttles no earlier than at [C]. *)
Theorem capacity_is_attained (w : Wrapped) (C : nat) (t0 : Time)
    (calls : list Call)
    (Hcalls : C <= length calls) :
  exists sched s,
    run sched (start w C t0 calls) = Some s /\
    executing s = C /\
    held s = C /\
    capacity s = C.
Proof.
  assert (Hk : forall k, k <= C ->
             exists sched s,
               run sched (start w C t0 calls) = Some s /\
               Inv w C calls s (first_inside k t0 calls) /\
               st_clock s = t0 /\ held s = k /\ executing s = k).
  { induction k as [|k IH]; intros Hle.
    - exists [], (start w C t0 calls). split; [done |]. split.
      + replace (first_inside 0 t0 calls) with (abs_start calls);
          [apply inv_start |].
        unfold first_inside, abs_start. apply list_eq. intros j.
        rewrite list_lookup_fmap, list_lookup_imap. by destruct (calls !! j).
      + split; [done |]. split; [done |].
        pose proof (inv_executing _ _ _ _ _ (inv_start w C t0 calls)) as Hex.
        change (held (start w C t0 calls)) with 0 in Hex. lia.
    - destruct (IH ltac:(lia)) as (sched & s & Hr & HI & Hclk & Hh & He).
      destruct (lookup_lt_is_Some_2 calls k ltac:(lia)) as [c Hc].
      assert (Hi : first_inside k t0 calls !! k = Some (c, PhStart)).
      { unfold first_inside. rewrite list_lookup_imap, Hc. simpl.
        by rewrite Nat.ltb_irrefl. }
      destruct (enter_wrapped _ _ _ _ _ _ _ HI Hi ltac:(lia))
        as (sched' & s' & Hr' & HI' & Hclk' & Hh' & He').
      exists (sched ++ sched'), s'.
      split; [by rewrite (run_app _ _ _ _ Hr) |]. split.
      + replace (first_inside (S k) t0 calls)
          with (<[k:=(c, PhInner (st_clock s) (st_clock s))]> (first_inside k t0 calls));
          [exact HI' |].
        rewrite Hclk. apply list_eq. intros j.
        unfold first_inside. rewrite list_lookup_insert.
        rewrite !list_lookup_imap, length_imap.
        destruct (decide (k = j /\ k < length calls)) as [[<- _] | Hne].
        * rewrite Hc. simpl. by rewrite (proj2 (Nat.ltb_lt k (S k))) by lia.
        * destruct (calls !! j) eqn:Hj; simpl; [| done].
          destruct (Nat.ltb_spec j k), (Nat.ltb_spec j (S k)); try done; lia.
      + split; [congruence |]. split; lia. }
  destruct (Hk C (le_n _)) as (sched & s & Hr & HI & _ & Hh & He).
  exists sched, s. repeat split; try done. by eapply inv_cap.
Qed.





End Reader.

End StorageWrappers.

Module Scenario.
Import StorageWrappers.

(** Two reads on a reader of capacity one. Keys, tuples, iterators, filters,
    error values and the wrapped reader are numbers here. *)
Definition ctx0 : Context := mkContext 0 10.
Definition ctx1 : Context := mkContext 1 11.

Definition Call' : Type := @Call nat nat.
Definition Result' : Type := @Result nat nat nat.
Definition Event' : Type := @Event nat nat nat.
Definition State' : Type := @State nat nat nat nat nat nat.

Definition read0 : Call' := CallRead ctx0 "store" 7.
Definition read1 : Call' := CallRead ctx1 "store" 8.
Definition two_reads : list Call' := [read0; read1].

Definition fresh : State' := start 99 1 0%Z two_reads.

Definition state_after (sched : list Event') : State' :=
  match run sched fresh with
  | Some s => s
  | None => fresh
  end.

(** A schedule that is not refused leads to [state_after]. *)
Lemma run_state_after (sched : list Event') :
  match run sched fresh with Some _ => true | None => false end = true ->
  run sched fresh = Some (state_after sched).
Proof.
  unfold state_after. destruct (run sched fresh); [reflexivity | discriminate].
Defined.

(** Call 0 acquires the unit and enters the wrapped reader; call 1 reaches
    the send. *)
Definition sched_inside : list Event' :=
  [ EvStep 0; EvStep 0; EvStep 1; EvTick 2500000;
    EvStep 0; EvStep 0; EvStep 0; EvStep 0 ].

(** Then the wrapped reader returns iterator 5 to call 0, which releases the
    unit and returns. *)
Definition sched_returned : list Event' :=
  sched_inside ++ [ EvWrappedReturn 0 (ResIter (5, None)); EvStep 0 ].

(** Call 0 holds the only unit, call 1 is at the send, and the context of
    call 1 is cancelled. *)
Definition sched_cancelled : list Event' :=
  [ EvStep 0; EvStep 0; EvStep 1; EvCancel 1 Canceled ].

Lemma ran_inside : run sched_inside fresh = Some (state_after sched_inside).
Proof. apply run_state_after. vm_compute. reflexivity. Defined.

Lemma ran_returned : run sched_returned fresh = Some (state_after sched_returned).
Proof. apply run_state_after. vm_compute. reflexivity. Defined.

Lemma ran_cancelled : run sched_cancelled fresh = Some (state_after sched_cancelled).
Proof. apply run_state_after. vm_compute. reflexivity. Defined.

Example call1_is_refused_the_send :
  run (sched_cancelled ++ [EvStep 1]) fresh = None.
Proof. reflexivity. Qed.

Example record_of_call0 :
  ops_of 0 (st_log (state_after sched_returned))
  = [ OpNow 0%Z; OpSend; OpNow 2500000%Z;
      OpObserve boundedReadDelayMsHistogram 2;
      OpSetAttributes 10 [Int64 "time_waiting" 2];
      OpInvoke 99 read0; OpReturn (ResIter (5, None)); OpRecv ].
Proof. reflexivity. Qed.

Lemma at_most_capacity_calls_execute_witness :
  let s := state_after sched_inside in
  executing s = 1 /\ executing s <= held s /\ held s <= 1.
Proof.
  intros s.
  destruct (StorageWrappers.at_most_capacity_calls_execute
              99 1 0%Z two_reads sched_inside s ran_inside) as (_ & H1 & H2 & _).
  split; [reflexivity | split; assumption].
Defined.

Lemma result_is_the_wrapped_result_witness :
  let s := state_after sched_returned in
  StorageWrappers.invocations (StorageWrappers.ops_of 0 (StorageWrappers.st_log s))
  = [(99, read0)].
Proof.
  intros s.
  destruct (StorageWrappers.result_is_the_wrapped_result
              99 1 0%Z two_reads sched_returned s
              ran_returned
              0 read0 (StorageWrappers.ResIter (5, None)) eq_refl eq_refl)
    as (_ & H & _).
  exact H.
Defined.

Lemma wait_is_observed_once_witness :
  let ops := ops_of 0 (st_log (state_after sched_returned)) in
  exists t1 t2 v,
    observations ops = [(boundedReadDelayMsHistogram, v)] /\
    attributes ops = [(10, [Int64 "time_waiting" v])] /\
    sends ops = 1 /\
    (t2 - t1 < 2 ^ 63 -> 1000000 * v <= t2 - t1 < 1000000 * v + 1000000)%Z.
Proof.
  intros ops.
  destruct (StorageWrappers.wait_is_observed_once
              99 1 0%Z two_reads sched_returned (state_after sched_returned)
              ran_returned
              0 read0 eq_refl)
    as (_ & _ & _ & _ & _ & H).
  destruct H as (t1 & t2 & v & rest & _ & _ & Hobs & Hattr & Hs & _ & Hv & _).
  - intros E. vm_compute in E. discriminate E.
  - exists t1, t2, v.
    split; [exact Hobs | split; [exact Hattr | split; [exact Hs | exact Hv]]].
Defined.

Lemma call1_at_send : StorageWrappers.at_send (state_after sched_cancelled) 1.
Proof. eexists. reflexivity. Defined.

Lemma two_reads_fit (j : nat) (c : Call') :
  two_reads !! j = Some c -> fits c (ResIter (0, @None nat) : Result') = true.
Proof.
  destruct j as [|[|j]]; simpl; intros H; inversion H; reflexivity.
Defined.

Lemma blocked_call_waits_through_cancellation_witness :
  let s := state_after sched_cancelled in
  sends (ops_of 1 (st_log s)) = 0 /\
  exists sched' s', run sched' s = Some s' /\ held s' = 0.
Proof.
  intros s.
  destruct (StorageWrappers.blocked_call_waits_through_cancellation
              99 1 0%Z two_reads sched_cancelled (state_after sched_cancelled)
              ran_cancelled
              1 read1 eq_refl call1_at_send)
    as (_ & _ & H & Hall).
  split; [exact H |].
  destruct (Hall ltac:(lia) (fun _ => ResIter (0, None)) two_reads_fit)
    as (sched' & s' & Hr & Hz & _).
  exists sched', s'. split; [exact Hr | exact Hz].
Defined.

Lemma unit_is_released_with_the_iterator_witness :
  exists sched s,
    StorageWrappers.run sched fresh = Some s /\
    StorageWrappers.iterators_handed_out s = 2 /\
    StorageWrappers.held s = 0.
Proof.
  destruct (StorageWrappers.unit_is_released_with_the_iterator
              (Tuple := nat) (TupleIterator := nat) (Err := nat)
              99 1 0%Z two_reads)
    as [_ H].
  destruct (H ltac:(lia) ltac:(repeat constructor) 5)
    as (sched & s & Hr & Hn & _ & Hz & _).
  exists sched, s. split; [exact Hr | split; [exact Hn | exact Hz]].
Defined.

(** C2 fails with a capacity of one: call 0 holds the unit, call 1 is at the
    send and its context has been cancelled, yet whatever happens next call 1
    is still at the send; it has not returned. *)
Lemma cancel_aborts_wait_fails :
  let s := state_after sched_cancelled in
  StorageWrappers.at_send s 1 /\
  StorageWrappers.held s = StorageWrappers.capacity s /\
  StorageWrappers.ctx_err (StorageWrappers.st_done s) (ctx_key (StorageWrappers.call_ctx read1))
  = Some StorageWrappers.Canceled /\
  (forall e s', StorageWrappers.step e s = Some s' -> StorageWrappers.at_send s' 1) /\
  ~ StorageWrappers.cancel_aborts_wait s 1 read1.
Proof.
  intros s.
  assert (Hstay : forall e s', StorageWrappers.step e s = Some s' ->
                               StorageWrappers.at_send s' 1).
  { intros e s' Hstep.
    destruct (StorageWrappers.reachable_inv 99 1 0%Z two_reads sched_cancelled s
                ran_cancelled)
      as [abs HI].
    destruct (StorageWrappers.waits_until_room _ _ _ _ _ _ _ _ HI call1_at_send Hstep)
      as [H | (_ & Hroom & _)]; [exact H |].
    exfalso. revert Hroom. change (StorageWrappers.held s) with 1. lia. }
  split; [exact call1_at_send |].
  split; [reflexivity |]. split; [reflexivity |]. split; [exact Hstay |].
  intros Hclaim.
  destruct (Hclaim call1_at_send eq_refl) as (e & s' & r & Hstep & Hret);
    [discriminate |].
  destruct (Hstay _ _ Hstep) as [k Hk].
  unfold StorageWrappers.returned in Hret. rewrite Hk in Hret. discriminate.
Qed.

(** *** Further scenarios *)

(** The wrapped reader has answered call 0, whose deferred receive is
    pending. *)
Definition sched_answered : list Event' :=
  sched_inside ++ [ EvWrappedReturn 0 (ResIter (5, None)) ].

Lemma ran_answered : run sched_answered fresh = Some (state_after sched_answered).
Proof. apply run_state_after. vm_compute. reflexivity. Defined.

(** The same two reads on a reader of capacity zero. *)
Definition fresh_zero : State' := start 99 0 0%Z two_reads.

Definition state_after_zero (sched : list Event') : State' :=
  match run sched fresh_zero with
  | Some s => s
  | None => fresh_zero
  end.

Lemma run_state_after_zero (sched : list Event') :
  match run sched fresh_zero with Some _ => true | None => false end = true ->
  run sched fresh_zero = Some (state_after_zero sched).
Proof.
  unfold state_after_zero. destruct (run sched fresh_zero); [reflexivity | discriminate].
Defined.

Definition sched_zero : list Event' := [ EvStep 0; EvStep 1; EvTick 1000 ].

Example zero_refuses_the_send : run (sched_zero ++ [EvStep 0]) fresh_zero = None.
Proof. vm_compute. reflexivity. Qed.

Lemma only_the_send_blocks_witness :
  exists s', step (EvStep 0) (state_after sched_answered) = Some s'.
Proof.
  apply (StorageWrappers.only_the_send_blocks
           99 1 0%Z two_reads sched_answered (state_after sched_answered)
           ran_answered 0 (LimiterRecv _ (Ret _ (ResIter (5, None))))).
  - vm_compute. reflexivity.
  - intros r. discriminate.
  - intros k. discriminate.
Defined.

Lemma zero_concurrency_blocks_every_call_witness :
  let s := state_after_zero sched_zero in
  sends (all_ops s) = 0 /\ executing s = 0 /\ held s = 0.
Proof.
  intros s.
  destruct (StorageWrappers.zero_concurrency_blocks_every_call
              99 0%Z two_reads sched_zero s
              (run_state_after_zero sched_zero ltac:(vm_compute; reflexivity)))
    as (H1 & _ & _ & H2 & H3).
  split; [exact H1 | split; [exact H2 | exact H3]].
Defined.

Lemma observation_is_truncated_witness :
  exists t1 t2 rest,
    ops_of 0 (st_log (state_after sched_returned))
    = OpNow t1 :: OpSend :: OpNow t2 :: rest /\
    (t2 - t1 <= maxDuration -> 1000000 * 2 <= t2 - t1 < 1000000 * 2 + 1000000)%Z.
Proof.
  destruct (StorageWrappers.observation_is_truncated
              99 1 0%Z two_reads sched_returned (state_after sched_returned)
              ran_returned 0 read0 boundedReadDelayMsHistogram 2%Z eq_refl)
    as (_ & t1 & t2 & rest & Hops & _ & Hv & _).
  - vm_compute. left. reflexivity.
  - exists t1, t2, rest. split; [exact Hops | exact Hv].
Defined.

Lemma capacity_is_attained_witness :
  exists sched s,
    run sched fresh = Some s /\ executing s = 1 /\ held s = 1.
Proof.
  destruct (StorageWrappers.capacity_is_attained
              (Tuple := nat) (TupleIterator := nat) (Err := nat)
              99 1 0%Z two_reads)
    as (sched & s & Hr & He & Hh & _).
  - simpl. lia.
  - exists sched, s. split; [exact Hr | split; [exact He | exact Hh]].
Defined.

Lemma every_unit_belongs_to_a_call_witness :
  let s := state_after sched_inside in
  held s = holding_calls s /\ held s = 1.
Proof.
  intros s.
  destruct (StorageWrappers.every_unit_belongs_to_a_call
              99 1 0%Z two_reads sched_inside s ran_inside) as (H & _).
  split; [exact H | reflexivity].
Defined.


End Scenario.
